(** * readbucket_mt: the multi-threaded bucket reader

    A shallow embedding of [readbucket_mt.cpp]: the work queue [ObjectList],
    the range-header helper [ConstructByteRange], the chunking loop of the
    enumerating main thread, the [Retriever] thread loop and the program as
    an interleaving of the main thread with its reader threads.

    Modelling conventions.
    - [unsigned long long] values are [Z] in [0, 2^64); additions wrap
      through [wrap64].
    - The queue methods each hold the mutex for their whole body, so each is
      one atomic function on the queue state.
    - The S3 client is an external collaborator: a record of two functions
      from requests to outcomes, obtained from the endpoint.
    - Loops that the source does not bound take a fuel argument and return
      [None] when it runs out. *)

From Stdlib Require Import ZArith String Ascii Bool Lia Arith.
From Stdlib Require Import DecimalString DecimalN.
From stdpp Require Import base tactics option list.

Local Open Scope Z_scope.

(** ** Machine integers *)

Definition wrap64 (z : Z) : Z := z mod 2 ^ 64.

(** [static const auto ThreadCount = 32U;] *)
Definition ThreadCount : nat := 32.

(** [static const auto ReadChunkSize = 4ULL * 1024ULL * 1024ULL * 1024ULL;] *)
Definition ReadChunkSize : Z := wrap64 (wrap64 (wrap64 (4 * 1024) * 1024) * 1024).

(** ** The work queue: [class ObjectList] *)

(** [typedef std::pair<Aws::String, Aws::String> ReadKey;] a key and the byte
    range to read. *)
Definition ReadKey : Type := (string * string)%type.

(** The private members [keylist_] and [end_marker_]; the mutex has no state
    of its own in a model where every method is atomic. *)
Record ObjectList : Type := mkObjectList {
  keylist_ : list ReadKey;
  end_marker_ : bool
}.

(** [ObjectList() {}] with [bool end_marker_ = false]. *)
Definition ObjectList_new : ObjectList :=
  {| keylist_ := []; end_marker_ := false |}.

(** [keylist_.emplace_back(key, range);] *)
Definition push_back (key range : string) (q : ObjectList) : ObjectList :=
  {| keylist_ := keylist_ q ++ [(key, range)]; end_marker_ := end_marker_ q |}.

(** [Pop]: the empty optional on an empty list, else the front element, which
    is removed. *)
Definition Pop (q : ObjectList) : option ReadKey * ObjectList :=
  match keylist_ q with
  | [] => (None, q)
  | result :: rest =>
      (Some result, {| keylist_ := rest; end_marker_ := end_marker_ q |})
  end.

(** [end_marker_ = true;] *)
Definition SetEnd (q : ObjectList) : ObjectList :=
  {| keylist_ := keylist_ q; end_marker_ := true |}.

(** [return end_marker_;] *)
Definition IsEnd (q : ObjectList) : bool * ObjectList :=
  (end_marker_ q, q).

(** A call of one of the four public methods, and its effect on the queue. *)
Inductive QueueOp : Type :=
| OpPush (key range : string)
| OpPop
| OpSetEnd
| OpIsEnd.

Definition apply_op (op : QueueOp) (q : ObjectList) : ObjectList :=
  match op with
  | OpPush key range => push_back key range q
  | OpPop => snd (Pop q)
  | OpSetEnd => SetEnd q
  | OpIsEnd => snd (IsEnd q)
  end.

Definition run_ops (ops : list QueueOp) (q : ObjectList) : ObjectList :=
  fold_left (fun q op => apply_op op q) ops q.

(** [n] calls of [Pop] in a row: the results in call order, and the queue
    that is left. *)
Fixpoint pops (n : nat) (q : ObjectList) : list (option ReadKey) * ObjectList :=
  match n with
  | O => ([], q)
  | S n' =>
      let (r, q') := Pop q in
      let (rs, q'') := pops n' q' in
      (r :: rs, q'')
  end.

(** The tasks handed out by a list of [Pop] results. *)
Fixpoint successes (rs : list (option ReadKey)) : list ReadKey :=
  match rs with
  | [] => []
  | Some t :: rs' => t :: successes rs'
  | None :: rs' => successes rs'
  end.

(** The queue after pushing the given tasks in order. *)
Definition push_all (ts : list ReadKey) (q : ObjectList) : ObjectList :=
  fold_left (fun q t => push_back (fst t) (snd t) q) ts q.

(** ** [ConstructByteRange] *)

(** [Aws::Utils::StringUtils::to_string] at [unsigned long long]: the decimal
    digits of the value. *)
Definition to_string (n : Z) : string :=
  NilZero.string_of_uint (N.to_uint (Z.to_N n)).

(** [return "bytes=" + to_string(lower) + "-" + to_string(upper);] *)
Definition ConstructByteRange (lower upper : Z) : string :=
  ("bytes=" ++ to_string lower ++ "-" ++ to_string upper)%string.

(** ** The S3 collaborator, as far as the program looks at it *)

(** [Aws::S3::Model::Object]: [GetSize] is a [long long]. *)
Record S3Object : Type := mkS3Object {
  GetKey : string;
  GetSize : Z
}.

Record AWSError : Type := mkAWSError {
  GetExceptionName : string;
  GetMessage : string
}.

Record ListObjectsV2Result : Type := mkListObjectsV2Result {
  GetContents : list S3Object;
  GetNextContinuationToken : string;
  GetIsTruncated : bool
}.

(** An [Outcome] holds a result, an error and a success flag, all three at
    once; [GetResult] and [GetError] read the members whatever the flag. *)
Record ListObjectsV2Outcome : Type := mkListObjectsV2Outcome {
  ListIsSuccess : bool;
  ListGetResult : ListObjectsV2Result;
  ListGetError : AWSError
}.

(** The members as the SDK's constructors leave them: a result that was never
    assigned lists nothing, has an empty token and is not truncated; an
    outcome built from an error holds such a result. *)
Definition ListObjectsV2Result_default : ListObjectsV2Result :=
  {| GetContents := []; GetNextContinuationToken := "";
     GetIsTruncated := false |}.

Definition AWSError_default : AWSError :=
  {| GetExceptionName := ""; GetMessage := "" |}.

Definition ListOutcome_of_result (r : ListObjectsV2Result) : ListObjectsV2Outcome :=
  {| ListIsSuccess := true; ListGetResult := r;
     ListGetError := AWSError_default |}.

Definition ListOutcome_of_error (e : AWSError) : ListObjectsV2Outcome :=
  {| ListIsSuccess := false; ListGetResult := ListObjectsV2Result_default;
     ListGetError := e |}.

(** [ListObjectsV2Request]: the bucket and, once set, the continuation token. *)
Record ListObjectsV2Request : Type := mkListObjectsV2Request {
  ListBucket : string;
  ListContinuationToken : option string
}.

Definition WithBucket (bucket_name : string) : ListObjectsV2Request :=
  {| ListBucket := bucket_name; ListContinuationToken := None |}.

Definition WithContinuationToken (token : string)
    (request : ListObjectsV2Request) : ListObjectsV2Request :=
  {| ListBucket := ListBucket request; ListContinuationToken := Some token |}.

Record GetObjectRequest : Type := mkGetObjectRequest {
  GetBucket : string;
  GetObjectKey : string;
  GetRange : string
}.

Record GetObjectOutcome : Type := mkGetObjectOutcome {
  GetIsSuccess : bool;
  GetGetError : AWSError
}.

Record S3Client : Type := mkS3Client {
  ListObjectsV2 : ListObjectsV2Request -> ListObjectsV2Outcome;
  GetObject : GetObjectRequest -> GetObjectOutcome
}.

(** ** Output *)

(** [std::endl] *)
Definition endl : string := String (ascii_of_nat 10) EmptyString.

(** ** [RetrieveObjectRange] *)

(** The text the call writes to [std::cout]; the bytes read go to /dev/null. *)
Definition RetrieveObjectRange (s3_client : S3Client)
    (bucket_name key range : string) : string :=
  let object_request :=
    {| GetBucket := bucket_name; GetObjectKey := key; GetRange := range |} in
  let get_object_outcome := GetObject s3_client object_request in
  if GetIsSuccess get_object_outcome then
    ("Read " ++ key ++ " " ++ GetRange object_request ++ endl)%string
  else
    ("GetObject error: "
       ++ GetExceptionName (GetGetError get_object_outcome) ++ " "
       ++ GetMessage (GetGetError get_object_outcome) ++ endl)%string.

(** ** The main thread *)

(** What the main thread does, one atomic action at a time: a statement
    writing to [std::cout] (taken as one write), the start of a reader
    thread, a [ListObjectsV2] call, a [push_back], [SetEnd], the [join] of
    reader [i], and the end of the process, by [exit(1)] or by the return
    from [main]. [Aws::InitAPI] and [Aws::ShutdownAPI] are left out. *)
Inductive Action : Type :=
| APrint (text : string)
| ASpawn
| AList (request : ListObjectsV2Request)
| APush (key range : string)
| ASetEnd
| AJoin (i : nat)
| AExit (status : Z).

(** The chunking loop
    [while (offset < objsize) { upper_bound = min(objsize, offset + chunk);
       push (offset, upper_bound); offset += chunk; }]
    yielding the pair of bounds of every iteration in order. Both additions
    are [unsigned long long] additions. *)
Fixpoint chunk_loop (fuel : nat) (chunk objsize offset : Z)
    : option (list (Z * Z)) :=
  match fuel with
  | O => None
  | S fuel' =>
      if offset <? objsize then
        let upper_bound := Z.min objsize (wrap64 (offset + chunk)) in
        match chunk_loop fuel' chunk objsize (wrap64 (offset + chunk)) with
        | Some rest => Some ((offset, upper_bound) :: rest)
        | None => None
        end
      else Some []
  end.

(** The body of [for (auto const & s3_object : object_list)]: the loop above
    from offset 0 with [ReadChunkSize], each pair pushed as
    [objects.push_back(s3_object.GetKey(), ConstructByteRange(offset, upper_bound))]. *)
Definition enumerate_object (fuel : nat) (s3_object : S3Object)
    : option (list Action) :=
  let offset := 0 in
  let objsize := wrap64 (GetSize s3_object) in
  match chunk_loop fuel ReadChunkSize objsize offset with
  | Some ranges =>
      Some ((fun r => APush (GetKey s3_object)
                      (ConstructByteRange (fst r) (snd r))) <$> ranges)
  | None => None
  end.

Fixpoint enumerate_objects (fuel : nat) (object_list : list S3Object)
    : option (list Action) :=
  match object_list with
  | [] => Some []
  | s3_object :: rest =>
      match enumerate_object fuel s3_object, enumerate_objects fuel rest with
      | Some a, Some b => Some (a ++ b)
      | _, _ => None
      end
  end.

(** [std::cout << "ListObjects error: " << name << " " << message << std::endl] *)
Definition list_error_text (e : AWSError) : string :=
  ("ListObjects error: " ++ GetExceptionName e ++ " " ++ GetMessage e
     ++ endl)%string.

(** One pass through the body of the [do ... while] loop, up to the token
    update: the listing call, then the pushes of a successful page or the
    error line of a failed one. *)
Definition list_page (s3_client : S3Client) (fuel : nat)
    (objects_request : ListObjectsV2Request) : option (list Action) :=
  let list_objects_outcome := ListObjectsV2 s3_client objects_request in
  if ListIsSuccess list_objects_outcome then
    match enumerate_objects fuel
            (GetContents (ListGetResult list_objects_outcome)) with
    | Some pushes => Some (AList objects_request :: pushes)
    | None => None
    end
  else
    Some [AList objects_request;
          APrint (list_error_text (ListGetError list_objects_outcome))].

(** The [do ... while (list_objects_outcome.GetResult().GetIsTruncated())]
    loop. *)
Fixpoint list_loop (s3_client : S3Client) (fuel : nat)
    (objects_request : ListObjectsV2Request) : option (list Action) :=
  match fuel with
  | O => None
  | S fuel' =>
      let list_objects_outcome := ListObjectsV2 s3_client objects_request in
      match list_page s3_client fuel' objects_request with
      | None => None
      | Some page =>
          let objects_request' :=
            WithContinuationToken
              (GetNextContinuationToken (ListGetResult list_objects_outcome))
              objects_request in
          if GetIsTruncated (ListGetResult list_objects_outcome) then
            match list_loop s3_client fuel' objects_request' with
            | Some rest => Some (page ++ rest)
            | None => None
            end
          else Some page
      end
  end.

Definition usage (argv0 : string) : string :=
  (endl ++ "To run this example, supply the name of a bucket to list!"
     ++ endl ++ "Ex: " ++ argv0 ++ " <endpoint> <bucket-name>" ++ endl
     ++ endl)%string.

Definition banner (bucket_name endpoint : string) : string :=
  ("Reading S3 bucket: " ++ bucket_name ++ " from " ++ endpoint ++ endl)%string.

Section Program.

(** The [S3Client] constructor with [config.endpointOverride = endpoint]. *)
Variable connect : string -> S3Client.

(** [main]: the actions of the main thread in program order. [argv] holds the
    program name and the arguments, [argc] is its length. The main thread
    never reads the queue, so what it does is the same under every
    interleaving with the readers; [None] stands for a listing loop that is
    not over within the fuel. *)
Definition main (fuel : nat) (argv : list string) : option (list Action) :=
  if Z.of_nat (length argv) <? 3 then
    Some [APrint (usage (nth 0 argv ""%string)); AExit 1]
  else
    let endpoint := nth 1 argv ""%string in
    let bucket_name := nth 2 argv ""%string in
    let s3_client := connect endpoint in
    match list_loop s3_client fuel (WithBucket bucket_name) with
    | Some listing =>
        Some ([APrint (banner bucket_name endpoint)]
                ++ replicate ThreadCount ASpawn
                ++ listing
                ++ [ASetEnd]
                ++ (AJoin <$> seq 0 ThreadCount)
                ++ [AExit 0])
    | None => None
    end.

End Program.

(** ** The reader threads: [Retriever] *)

(** Where a reader stands in [Retriever]:
    - [Draining]: about to call [objects.Pop()] in the inner loop condition;
    - [Retrieving keyrange]: in the inner loop body, about to call
      [RetrieveObjectRange] on the task it popped;
    - [IdleWait]: [Pop] returned the empty optional, about to call
      [objects.IsEnd()];
    - [Sleeping]: about to [sleep_for] 10 ms and go round the outer loop;
    - [Done]: returned. *)
Inductive RetrieverPc : Type :=
| Draining
| Retrieving (keyrange : ReadKey)
| IdleWait
| Sleeping
| Done.

(** What one step of a thread did. *)
Inductive Event : Type :=
| EvPop (result : option ReadKey)
| EvRetrieve (keyrange : ReadKey)
| EvIsEnd (result : bool)
| EvSleep (milliseconds : Z)
| EvMain (a : Action).

(** One step of [Retriever]: the next position, the queue, the text written
    to [std::cout] and the event. A reader that has returned has no step. *)
Definition Retriever_step (s3_client : S3Client) (bucket_name : string)
    (pc : RetrieverPc) (objects : ObjectList)
    : option (RetrieverPc * ObjectList * string * Event) :=
  match pc with
  | Draining =>
      let (keyrange, objects') := Pop objects in
      match keyrange with
      | Some kr => Some (Retrieving kr, objects', ""%string, EvPop (Some kr))
      | None => Some (IdleWait, objects', ""%string, EvPop None)
      end
  | Retrieving kr =>
      let key := fst kr in
      let range := snd kr in
      Some (Draining, objects,
            RetrieveObjectRange s3_client bucket_name key range,
            EvRetrieve kr)
  | IdleWait =>
      let (is_end, objects') := IsEnd objects in
      if is_end then Some (Done, objects', ""%string, EvIsEnd true)
      else Some (Sleeping, objects', ""%string, EvIsEnd false)
  | Sleeping => Some (Draining, objects, ""%string, EvSleep 10)
  | Done => None
  end.

(** ** The running program *)

(** The shared queue, the text on [std::cout], the actions the main thread
    has still to do, the positions of the reader threads started so far, and
    the exit status once the process has ended. *)
Record System : Type := mkSystem {
  objects : ObjectList;
  cout : string;
  main_thread : list Action;
  reader_threads : list RetrieverPc;
  exit_status : option Z
}.

Definition initial (program : list Action) : System :=
  {| objects := ObjectList_new; cout := ""; main_thread := program;
     reader_threads := []; exit_status := None |}.

Inductive Tid : Type :=
| TMain
| TReader (i : nat).

(** The next action of the main thread. [t.join()] on a reader that has not
    returned blocks: no step. *)
Definition main_step (s : System) : option (System * Event) :=
  match main_thread s with
  | [] => None
  | a :: rest =>
      match a with
      | APrint text =>
          Some ({| objects := objects s; cout := (cout s ++ text)%string;
                   main_thread := rest; reader_threads := reader_threads s;
                   exit_status := exit_status s |}, EvMain a)
      | ASpawn =>
          Some ({| objects := objects s; cout := cout s;
                   main_thread := rest;
                   reader_threads := reader_threads s ++ [Draining];
                   exit_status := exit_status s |}, EvMain a)
      | AList _ =>
          Some ({| objects := objects s; cout := cout s;
                   main_thread := rest; reader_threads := reader_threads s;
                   exit_status := exit_status s |}, EvMain a)
      | APush key range =>
          Some ({| objects := push_back key range (objects s);
                   cout := cout s;
                   main_thread := rest; reader_threads := reader_threads s;
                   exit_status := exit_status s |}, EvMain a)
      | ASetEnd =>
          Some ({| objects := SetEnd (objects s); cout := cout s;
                   main_thread := rest; reader_threads := reader_threads s;
                   exit_status := exit_status s |}, EvMain a)
      | AJoin i =>
          match reader_threads s !! i with
          | Some Done =>
              Some ({| objects := objects s; cout := cout s;
                       main_thread := rest;
                       reader_threads := reader_threads s;
                       exit_status := exit_status s |}, EvMain a)
          | _ => None
          end
      | AExit status =>
          Some ({| objects := objects s; cout := cout s;
                   main_thread := rest; reader_threads := reader_threads s;
                   exit_status := Some status |}, EvMain a)
      end
  end.

Definition reader_step (s3_client : S3Client) (bucket_name : string)
    (i : nat) (s : System) : option (System * Event) :=
  match reader_threads s !! i with
  | None => None
  | Some pc =>
      match Retriever_step s3_client bucket_name pc (objects s) with
      | None => None
      | Some (pc', objects', text, ev) =>
          Some ({| objects := objects'; cout := (cout s ++ text)%string;
                   main_thread := main_thread s;
                   reader_threads := <[i := pc']> (reader_threads s);
                   exit_status := exit_status s |}, ev)
      end
  end.

(** One step of the thread [t]; [None] when that thread cannot move. Nothing
    moves once the process has ended. *)
Definition sys_step (s3_client : S3Client) (bucket_name : string)
    (t : Tid) (s : System) : option (System * Event) :=
  match exit_status s with
  | Some _ => None
  | None =>
      match t with
      | TMain => main_step s
      | TReader i => reader_step s3_client bucket_name i s
      end
  end.

(** A schedule names the thread to move at each turn; a turn given to a
    thread that cannot move is lost. The run keeps the events in order, each
    with its thread. *)
Definition turn (s3_client : S3Client) (bucket_name : string)
    (st : System * list (Tid * Event)) (t : Tid)
    : System * list (Tid * Event) :=
  match sys_step s3_client bucket_name t (fst st) with
  | Some (s', ev) => (s', snd st ++ [(t, ev)])
  | None => st
  end.

Definition run (s3_client : S3Client) (bucket_name : string)
    (schedule : list Tid) (s : System) : System * list (Tid * Event) :=
  fold_left (turn s3_client bucket_name) schedule (s, []).

(** The events of reader [i] in a trace. *)
Fixpoint events_of (i : nat) (trace : list (Tid * Event)) : list Event :=
  match trace with
  | [] => []
  | (TReader j, ev) :: rest =>
      if Nat.eqb i j then ev :: events_of i rest else events_of i rest
  | (TMain, _) :: rest => events_of i rest
  end.

(** A run of byte ranges from [start] to [stop]: every range begins where the
    one before it ended, holds at least one byte and at most [chunk]. *)
Fixpoint chained (chunk start : Z) (ranges : list (Z * Z)) (stop : Z) : Prop :=
  match ranges with
  | [] => start = stop
  | (lower, upper) :: rest =>
      lower = start /\ lower < upper /\ upper - lower <= chunk
      /\ chained chunk upper rest stop
  end.

(** The byte [b] lies in the half-open range [r]. *)
Definition in_range (b : Z) (r : Z * Z) : Prop := fst r <= b < snd r.

(** What a reader's own events say about where it stands: it is about to
    check the flag only right after a [Pop] that found the queue empty, and
    it has returned only right after such a [Pop] followed by an [IsEnd] that
    returned true. *)
Definition pc_justified (pc : RetrieverPc) (evs : list Event) : Prop :=
  match pc with
  | IdleWait => exists before, evs = before ++ [EvPop None]
  | Done => exists before, evs = before ++ [EvPop None; EvIsEnd true]
  | _ => True
  end.

Definition readers_justified (st : System * list (Tid * Event)) : Prop :=
  forall (i : nat) pc,
    reader_threads (fst st) !! i = Some pc ->
    pc_justified pc (events_of i (snd st)).

(** ** Progress of a reader once the flag is set *)

(** An upper bound on the steps a reader at [pc] still takes before it
    returns, when the flag is set, [pending] tasks are queued and no more
    will be pushed: two steps per task it may still pop, and the final
    [Pop] and [IsEnd]. *)
Definition poll_bound (pc : RetrieverPc) (pending : nat) : nat :=
  match pc with
  | Done => 0
  | IdleWait => 1
  | Draining => 2 * pending + 2
  | Retrieving _ => 2 * pending + 3
  | Sleeping => 2 * pending + 3
  end.

Definition is_push (a : Action) : bool :=
  match a with APush _ _ => true | _ => false end.

Definition is_exit (a : Action) : bool :=
  match a with AExit _ => true | _ => false end.

(** The main thread has no push left to do. *)
Definition no_push (acts : list Action) : bool :=
  forallb (fun a => negb (is_push a)) acts.

(** The main thread joins reader [i] before it ends the process. *)
Fixpoint joins_before_exit (i : nat) (acts : list Action) : bool :=
  match acts with
  | [] => true
  | AJoin j :: rest => Nat.eqb i j || joins_before_exit i rest
  | AExit _ :: _ => false
  | _ :: rest => joins_before_exit i rest
  end.

(** The turns a schedule gives to reader [i]. *)
Fixpoint turns_of (i : nat) (schedule : list Tid) : nat :=
  match schedule with
  | [] => O
  | TReader j :: rest =>
      if Nat.eqb i j then S (turns_of i rest) else turns_of i rest
  | TMain :: rest => turns_of i rest
  end.

(** The process runs, the flag is set, nothing more will be pushed, and the
    main thread will wait for reader [i]. *)
Definition draining_out (i : nat) (s : System) : Prop :=
  exit_status s = None
  /\ end_marker_ (objects s) = true
  /\ no_push (main_thread s) = true
  /\ joins_before_exit i (main_thread s) = true.

(** ** The shape of the main thread's program *)

(** The actions before [objects.SetEnd()]: output, thread starts, listing
    calls and pushes. *)
Definition is_quiet (a : Action) : bool :=
  match a with
  | APrint _ | ASpawn | AList _ | APush _ _ => true
  | _ => false
  end.

Fixpoint count_spawn (acts : list Action) : nat :=
  match acts with
  | [] => O
  | ASpawn :: rest => S (count_spawn rest)
  | _ :: rest => count_spawn rest
  end.

(** What is left of [main] once the first [joined] readers are joined: the
    remaining joins and the return. *)
Definition main_tail (joined : nat) : list Action :=
  (AJoin <$> seq joined (ThreadCount - joined)) ++ [AExit 0].

(** Where a run of [main] with both arguments can be: before [SetEnd], with
    the flag clear and the readers being started; after it, with all readers
    started and the first few joined; or ended, with status 0, nothing left
    to do and every reader returned. *)
Definition main_invariant (s : System) : Prop :=
  match exit_status s with
  | Some c =>
      c = 0 /\ main_thread s = []
      /\ reader_threads s = replicate ThreadCount Done
      /\ end_marker_ (objects s) = true
  | None =>
      (end_marker_ (objects s) = false
       /\ exists pre,
            main_thread s = pre ++ ASetEnd :: main_tail 0
            /\ forallb is_quiet pre = true
            /\ (length (reader_threads s) + count_spawn pre = ThreadCount)%nat)
      \/ (end_marker_ (objects s) = true
          /\ length (reader_threads s) = ThreadCount
          /\ exists joined : nat,
               (joined <= ThreadCount)%nat
               /\ main_thread s = main_tail joined
               /\ forall i : nat,
                    (i < joined)%nat -> reader_threads s !! i = Some Done)
  end.

(** The schedule that lets each of the first [n] readers in turn take [k]
    steps. *)
Definition readers_in_turn (n k : nat) : list Tid :=
  flat_map (fun i => replicate k (TReader i)) (seq 0 n).

(** The states of a run that was started with too few arguments: nothing
    done yet, the usage text written, the process ended with status 1. *)
Definition usage_states (argv0 : string) (s : System) : Prop :=
  s = initial [APrint (usage argv0); AExit 1]
  \/ s = {| objects := ObjectList_new; cout := usage argv0;
            main_thread := [AExit 1]; reader_threads := [];
            exit_status := None |}
  \/ s = {| objects := ObjectList_new; cout := usage argv0;
            main_thread := []; reader_threads := [];
            exit_status := Some 1 |}.

(** ** A bucket for the scenarios *)

Definition slow_down : AWSError :=
  {| GetExceptionName := "SlowDown";
     GetMessage := "Please reduce your request rate." |}.

Definition no_such_key : AWSError :=
  {| GetExceptionName := "NoSuchKey";
     GetMessage := "The specified key does not exist." |}.

(** The first page lists two objects and announces a second page; the fetch
    of the second page fails; a request with any other token would list a
    third object. The GET of key ["b"] fails, every other GET succeeds. *)
Definition flaky_client : S3Client :=
  {| ListObjectsV2 := fun request =>
       match ListContinuationToken request with
       | None =>
           ListOutcome_of_result
             {| GetContents := [ {| GetKey := "a"; GetSize := 10 |};
                                 {| GetKey := "b"; GetSize := 20 |} ];
                GetNextContinuationToken := "page2";
                GetIsTruncated := true |}
       | Some token =>
           if String.eqb token "page2" then ListOutcome_of_error slow_down
           else
             ListOutcome_of_result
               {| GetContents := [ {| GetKey := "c"; GetSize := 30 |} ];
                  GetNextContinuationToken := "";
                  GetIsTruncated := false |}
       end;
     GetObject := fun request =>
       if String.eqb (GetObjectKey request) "b"
       then {| GetIsSuccess := false; GetGetError := no_such_key |}
       else {| GetIsSuccess := true; GetGetError := AWSError_default |} |}.

(** ** Accounting for tasks *)

(** The tasks a list of actions pushes, in order. *)
Fixpoint pushes_of (acts : list Action) : list ReadKey :=
  match acts with
  | [] => []
  | APush key range :: rest => (key, range) :: pushes_of rest
  | _ :: rest => pushes_of rest
  end.

(** The tasks handed out by the [Pop]s among some events, in order. *)
Fixpoint popped_in (evs : list Event) : list ReadKey :=
  match evs with
  | [] => []
  | EvPop (Some kr) :: rest => kr :: popped_in rest
  | _ :: rest => popped_in rest
  end.

(** The tasks [RetrieveObjectRange] was called on among some events. *)
Fixpoint retrieved_in (evs : list Event) : list ReadKey :=
  match evs with
  | [] => []
  | EvRetrieve kr :: rest => kr :: retrieved_in rest
  | _ :: rest => retrieved_in rest
  end.

(** The task a reader holds: popped and not yet retrieved. *)
Definition in_hand (pc : RetrieverPc) : list ReadKey :=
  match pc with
  | Retrieving kr => [kr]
  | _ => []
  end.

(** Every popped task is accounted for: the pushes of the program are the
    tasks popped so far, the tasks queued, and the pushes still to come. *)
Definition tasks_conserved (program : list Action)
    (st : System * list (Tid * Event)) : Prop :=
  pushes_of program
  = popped_in (snd <$> snd st) ++ keylist_ (objects (fst st))
      ++ pushes_of (main_thread (fst st)).

(** A reader that exists has retrieved what it popped, up to the task in its
    hand; one that does not exist has done nothing. *)
Definition readers_accounted (st : System * list (Tid * Event)) : Prop :=
  forall i : nat,
    match reader_threads (fst st) !! i with
    | Some pc =>
        popped_in (events_of i (snd st))
        = retrieved_in (events_of i (snd st)) ++ in_hand pc
    | None => events_of i (snd st) = []
    end.

(** A reader at one of these positions calls [Pop] again before it next
    checks the flag. *)
Definition will_pop_again (pc : RetrieverPc) : bool :=
  match pc with
  | Draining | Retrieving _ | Sleeping => true
  | IdleWait | Done => false
  end.

(** Nothing more will be pushed, and the queue is empty unless reader [i]
    has still to call [Pop]. *)
Definition drained_unless_polling (i : nat) (s : System) : Prop :=
  no_push (main_thread s) = true
  /\ (keylist_ (objects s) = []
      \/ exists pc,
           reader_threads s !! i = Some pc /\ will_pop_again pc = true).

(** The listing requests a list of actions makes, in order. *)
Fixpoint list_calls (acts : list Action) : list ListObjectsV2Request :=
  match acts with
  | [] => []
  | AList request :: rest => request :: list_calls rest
  | _ :: rest => list_calls rest
  end.

(** ** [readbucket_sync.cpp]: the single-threaded reader *)

(** What the single thread does, in order: a statement writing to
    [std::cout], a [ListObjectsV2] call, a [GetObject] call, the end of the
    process. *)
Inductive SyncAction : Type :=
| SPrint (text : string)
| SList (request : ListObjectsV2Request)
| SGet (request : GetObjectRequest)
| SExit (status : Z).

(** [RetrieveObject]: the request names the bucket and the key and sets no
    range, so [GetRange()] is the empty string; one GET, then one line. *)
Definition RetrieveObject (s3_client : S3Client) (bucket_name : string)
    (s3_object : S3Object) : list SyncAction :=
  let object_request :=
    {| GetBucket := bucket_name; GetObjectKey := GetKey s3_object;
       GetRange := "" |} in
  let get_object_outcome := GetObject s3_client object_request in
  [SGet object_request;
   SPrint
     (if GetIsSuccess get_object_outcome then
        ("Read " ++ GetKey s3_object ++ " " ++ GetRange object_request
           ++ endl)%string
      else
        ("GetObject error: "
           ++ GetExceptionName (GetGetError get_object_outcome) ++ " "
           ++ GetMessage (GetGetError get_object_outcome) ++ endl)%string)].

(** [for (const auto & s3_object : object_list)]: the line ["* <key>"], then
    [RetrieveObject]. *)
Fixpoint sync_objects (s3_client : S3Client) (bucket_name : string)
    (object_list : list S3Object) : list SyncAction :=
  match object_list with
  | [] => []
  | s3_object :: rest =>
      SPrint ("* " ++ GetKey s3_object ++ endl)%string
        :: RetrieveObject s3_client bucket_name s3_object
        ++ sync_objects s3_client bucket_name rest
  end.

Definition sync_page (s3_client : S3Client) (bucket_name : string)
    (objects_request : ListObjectsV2Request) : list SyncAction :=
  let list_objects_outcome := ListObjectsV2 s3_client objects_request in
  if ListIsSuccess list_objects_outcome then
    SList objects_request
      :: sync_objects s3_client bucket_name
           (GetContents (ListGetResult list_objects_outcome))
  else
    [SList objects_request;
     SPrint (list_error_text (ListGetError list_objects_outcome))].

(** The [do ... while] loop of the single-threaded [main]. *)
Fixpoint sync_list_loop (s3_client : S3Client) (bucket_name : string)
    (fuel : nat) (objects_request : ListObjectsV2Request)
    : option (list SyncAction) :=
  match fuel with
  | O => None
  | S fuel' =>
      let list_objects_outcome := ListObjectsV2 s3_client objects_request in
      let page := sync_page s3_client bucket_name objects_request in
      let objects_request' :=
        WithContinuationToken
          (GetNextContinuationToken (ListGetResult list_objects_outcome))
          objects_request in
      if GetIsTruncated (ListGetResult list_objects_outcome) then
        match sync_list_loop s3_client bucket_name fuel' objects_request' with
        | Some rest => Some (page ++ rest)
        | None => None
        end
      else Some page
  end.

Definition sync_usage (argv0 : string) : string :=
  (endl
     ++ "To run this example, supply the endpoint IP and name of a bucket to read. "
     ++ endl ++ "Ex: " ++ argv0 ++ " <endpoint> <bucket-name>" ++ endl
     ++ endl)%string.

(** [main] of the single-threaded reader. *)
Definition sync_main (connect : string -> S3Client) (fuel : nat)
    (argv : list string) : option (list SyncAction) :=
  if Z.of_nat (length argv) <? 3 then
    Some [SPrint (sync_usage (nth 0 argv ""%string)); SExit 1]
  else
    let endpoint := nth 1 argv ""%string in
    let bucket_name := nth 2 argv ""%string in
    let s3_client := connect endpoint in
    match sync_list_loop s3_client bucket_name fuel (WithBucket bucket_name) with
    | Some listing =>
        Some ([SPrint (banner bucket_name endpoint)] ++ listing ++ [SExit 0])
    | None => None
    end.

(** The listing requests and the GET requests among the actions of the
    single thread, in order. *)
Fixpoint sync_list_calls (acts : list SyncAction) : list ListObjectsV2Request :=
  match acts with
  | [] => []
  | SList request :: rest => request :: sync_list_calls rest
  | _ :: rest => sync_list_calls rest
  end.

Fixpoint sync_gets (acts : list SyncAction) : list GetObjectRequest :=
  match acts with
  | [] => []
  | SGet request :: rest => request :: sync_gets rest
  | _ :: rest => sync_gets rest
  end.

(** The objects on the successful pages among some listing requests. *)
Definition listed_by (s3_client : S3Client)
    (calls : list ListObjectsV2Request) : list S3Object :=
  flat_map
    (fun request =>
       if ListIsSuccess (ListObjectsV2 s3_client request)
       then GetContents (ListGetResult (ListObjectsV2 s3_client request))
       else [])
    calls.

(** A chain of listing requests: each but the last got a truncated result
    and is followed by the request with that result's token; the last got a
    result that was not truncated. *)
Fixpoint paginated (s3_client : S3Client) (first : ListObjectsV2Request)
    (more : list ListObjectsV2Request) : Prop :=
  let result := ListGetResult (ListObjectsV2 s3_client first) in
  match more with
  | [] => GetIsTruncated result = false
  | next :: rest =>
      GetIsTruncated result = true
      /\ next = WithContinuationToken (GetNextContinuationToken result) first
      /\ paginated s3_client next rest
  end.

(** The string holds no ["-"]. *)
Fixpoint no_dash (s : string) : bool :=
  match s with
  | EmptyString => true
  | String c rest => negb (Ascii.eqb c "-") && no_dash rest
  end.

(** The actions the main thread has done among some events, in order. *)
Fixpoint main_actions_in (evs : list Event) : list Action :=
  match evs with
  | [] => []
  | EvMain a :: rest => a :: main_actions_in rest
  | _ :: rest => main_actions_in rest
  end.

(** * Properties of the work queue *)

Lemma Pop_cons (q : ObjectList) (t : ReadKey) (rest : list ReadKey) :
  keylist_ q = t :: rest ->
  Pop q = (Some t, {| keylist_ := rest; end_marker_ := end_marker_ q |}).
Proof. intros E. unfold Pop. now rewrite E. Qed.

Lemma Pop_nil (q : ObjectList) : keylist_ q = [] -> Pop q = (None, q).
Proof. intros E. unfold Pop. now rewrite E. Qed.

Lemma Pop_end_marker (q : ObjectList) :
  end_marker_ (snd (Pop q)) = end_marker_ q.
Proof. unfold Pop. now destruct (keylist_ q). Qed.

Lemma push_all_keylist (ts : list ReadKey) (q : ObjectList) :
  keylist_ (push_all ts q) = keylist_ q ++ ts
  /\ end_marker_ (push_all ts q) = end_marker_ q.
Proof.
  revert q. induction ts as [|[key range] ts IH]; intros q.
  - simpl. now rewrite app_nil_r.
  - change (push_all ((key, range) :: ts) q)
      with (push_all ts (push_back key range q)).
    destruct (IH (push_back key range q)) as [K E].
    rewrite K, E. simpl. now rewrite <- app_assoc.
Qed.

(** [n] pops hand out the first [n] pending tasks in order, then report
    empty; the rest of the queue stays behind and the flag is untouched. *)
Lemma pops_spec (n : nat) (q : ObjectList) :
  fst (pops n q)
    = map Some (take n (keylist_ q))
        ++ replicate (n - length (keylist_ q)) None
  /\ keylist_ (snd (pops n q)) = drop n (keylist_ q)
  /\ end_marker_ (snd (pops n q)) = end_marker_ q.
Proof.
  revert q. induction n as [|n IH]; intros q; simpl.
  - now rewrite drop_0.
  - destruct (keylist_ q) as [|t rest] eqn:E.
    + rewrite (Pop_nil q E). specialize (IH q).
      destruct (pops n q) as [rs q'']. simpl in *.
      destruct IH as (R & K & M). rewrite E in R, K. simpl in R.
      rewrite take_nil in R. simpl in R. rewrite Nat.sub_0_r in R.
      rewrite drop_nil in K. now rewrite R, K, M.
    + rewrite (Pop_cons q t rest E).
      specialize (IH {| keylist_ := rest; end_marker_ := end_marker_ q |}).
      destruct (pops n _) as [rs q'']. simpl in *.
      destruct IH as (R & K & M). now rewrite R, K, M.
Qed.

Lemma successes_app (xs ys : list (option ReadKey)) :
  successes (xs ++ ys) = successes xs ++ successes ys.
Proof.
  induction xs as [|[t|] xs IH]; simpl; auto. now rewrite IH.
Qed.

Lemma successes_map_Some (ts : list ReadKey) : successes (map Some ts) = ts.
Proof. induction ts as [|t ts IH]; simpl; auto. now rewrite IH. Qed.

Lemma successes_replicate_None (n : nat) : successes (replicate n None) = [].
Proof. induction n; simpl; auto. Qed.

Lemma successes_pops (n : nat) (q : ObjectList) :
  successes (fst (pops n q)) = take n (keylist_ q).
Proof.
  destruct (pops_spec n q) as (R & _). rewrite R, successes_app.
  rewrite successes_map_Some, successes_replicate_None. apply app_nil_r.
Qed.

(** C3. [Pop] on a queue with pending tasks removes and returns the head,
    which is the task pushed first among the pending ones, and on an empty
    queue returns the empty optional and changes nothing. Of [n] pops in a
    row the successful ones are exactly the first [n] pending tasks in push
    order, each queue position handed out once; so [K] pending tasks and no
    further push give exactly [K] successful pops however many pops are
    made, and distinct tasks are never returned twice. *)
Theorem Pop_fifo_at_most_once :
  (forall q t rest,
      keylist_ q = t :: rest ->
      Pop q = (Some t, {| keylist_ := rest; end_marker_ := end_marker_ q |}))
  /\ (forall q, keylist_ q = [] -> Pop q = (None, q))
  /\ (forall q ts n,
        successes (fst (pops n (push_all ts q))) = take n (keylist_ q ++ ts))
  /\ (forall q n,
        fst (pops n q)
          = map Some (take n (keylist_ q))
              ++ replicate (n - length (keylist_ q)) None
        /\ keylist_ (snd (pops n q)) = drop n (keylist_ q))
  /\ (forall q n,
        (length (keylist_ q) <= n)%nat ->
        successes (fst (pops n q)) = keylist_ q
        /\ length (successes (fst (pops n q))) = length (keylist_ q)
        /\ keylist_ (snd (pops n q)) = []
        /\ fst (Pop (snd (pops n q))) = None)
  /\ (forall q n,
        NoDup (keylist_ q) -> NoDup (successes (fst (pops n q)))).
Proof.
  split; [exact Pop_cons|]. split; [exact Pop_nil|].
  split.
  { intros q ts n. rewrite successes_pops.
    now destruct (push_all_keylist ts q) as [-> _]. }
  split.
  { intros q n. destruct (pops_spec n q) as (R & K & _). now split. }
  split.
  { intros q n Hn. rewrite successes_pops.
    destruct (pops_spec n q) as (_ & K & _).
    rewrite take_ge by exact Hn. rewrite drop_ge in K by exact Hn.
    repeat split; auto. now rewrite (Pop_nil _ K). }
  intros q n ND. rewrite successes_pops.
  rewrite <- (take_drop n (keylist_ q)) in ND.
  now apply NoDup_app in ND as (ND & _).
Qed.

Lemma Pop_fifo_at_most_once_witness :
  let q := push_all [("a", "bytes=0-1"); ("b", "bytes=0-2")]%string
             ObjectList_new in
  successes (fst (pops 5 q)) = keylist_ q
  /\ length (successes (fst (pops 5 q))) = 2%nat
  /\ keylist_ (snd (pops 5 q)) = []
  /\ fst (Pop (snd (pops 5 q))) = None.
Proof.
  intros q.
  destruct Pop_fifo_at_most_once as (_ & _ & _ & _ & H & _).
  apply (H q 5%nat). vm_compute. lia.
Defined.

Lemma run_ops_end_marker (ops : list QueueOp) (q : ObjectList) :
  end_marker_ q = true -> end_marker_ (run_ops ops q) = true.
Proof.
  revert q. induction ops as [|op ops IH]; intros q E; simpl; auto.
  apply IH. destruct op; simpl; auto. now rewrite Pop_end_marker.
Qed.

(** C4. Once [IsEnd] has returned true it returns true after every further
    sequence of pushes, pops, [SetEnd] and [IsEnd] calls, and a second
    [SetEnd] leaves the queue as the first one left it. *)
Theorem end_marker_monotonic_SetEnd_idempotent :
  (forall q ops,
      fst (IsEnd q) = true -> fst (IsEnd (run_ops ops q)) = true)
  /\ (forall q, SetEnd (SetEnd q) = SetEnd q)
  /\ (forall q ops, fst (IsEnd (run_ops ops (SetEnd q))) = true).
Proof.
  split; [|split].
  - intros q ops E. simpl in *. now apply run_ops_end_marker.
  - intros q. reflexivity.
  - intros q ops. simpl. now apply run_ops_end_marker.
Qed.

Lemma end_marker_monotonic_SetEnd_idempotent_witness :
  fst (IsEnd (run_ops [OpPush "k" "bytes=0-1"; OpPop; OpPop; OpIsEnd]%string
                (SetEnd ObjectList_new))) = true.
Proof.
  destruct end_marker_monotonic_SetEnd_idempotent as (H & _ & _).
  apply (H (SetEnd ObjectList_new)). reflexivity.
Defined.

(** C10. [push_back] leaves the flag as it was, [SetEnd] leaves the pending
    tasks as they were, [IsEnd] returns the queue it was given, and [Pop] on
    an empty queue returns the empty optional with the queue unchanged. *)
Theorem queue_frame_effects (q : ObjectList) (key range : string) :
  end_marker_ (push_back key range q) = end_marker_ q
  /\ keylist_ (SetEnd q) = keylist_ q
  /\ snd (IsEnd q) = q
  /\ (keylist_ q = [] -> fst (Pop q) = None /\ snd (Pop q) = q).
Proof.
  split; [reflexivity|]. split; [reflexivity|]. split; [reflexivity|].
  intros E. now rewrite (Pop_nil q E).
Qed.

Lemma queue_frame_effects_witness :
  fst (Pop (SetEnd ObjectList_new)) = None
  /\ snd (Pop (SetEnd ObjectList_new)) = SetEnd ObjectList_new.
Proof.
  destruct (queue_frame_effects (SetEnd ObjectList_new) "" "")
    as (_ & _ & _ & H).
  apply H. reflexivity.
Defined.

(** * The chunking loop *)

Lemma wrap64_small (z : Z) : 0 <= z < 2 ^ 64 -> wrap64 z = z.
Proof. intros H. unfold wrap64. now apply Z.mod_small. Qed.

Lemma ReadChunkSize_value : ReadChunkSize = 4294967296.
Proof. reflexivity. Qed.

Section Chained.

Variable chunk : Z.

Lemma chained_le (rs : list (Z * Z)) (a b : Z) :
  chained chunk a rs b -> a <= b.
Proof.
  revert a. induction rs as [|[l u] rs IH]; simpl; intros a H.
  - lia.
  - destruct H as (-> & Hlt & _ & H). apply IH in H. lia.
Qed.

Lemma chained_bounds (rs : list (Z * Z)) (a b : Z) :
  chained chunk a rs b ->
  forall r, In r rs ->
    a <= fst r /\ fst r < snd r /\ snd r - fst r <= chunk /\ snd r <= b.
Proof.
  revert a. induction rs as [|[l u] rs IH]; simpl; intros a H r Hr.
  - contradiction.
  - destruct H as (-> & Hlt & Hlen & H). destruct Hr as [<-|Hr]; simpl.
    + apply chained_le in H. lia.
    + destruct (IH _ H r Hr) as (? & ? & ? & ?). lia.
Qed.

Lemma chained_cover (rs : list (Z * Z)) (a b : Z) :
  chained chunk a rs b ->
  forall x, a <= x < b -> exists r, In r rs /\ in_range x r.
Proof.
  revert a. induction rs as [|[l u] rs IH]; simpl; intros a H x Hx.
  - lia.
  - destruct H as (-> & Hlt & Hlen & H).
    destruct (Z_lt_le_dec x u) as [Hxu|Hxu].
    + exists (a, u). split; [now left|]. unfold in_range. simpl. lia.
    + destruct (IH _ H x) as (r & Hr & Hin); [lia|].
      exists r. split; [now right|assumption].
Qed.

Lemma chained_succ (rs : list (Z * Z)) (a b : Z) :
  chained chunk a rs b ->
  forall (i : nat) r r',
    rs !! i = Some r -> rs !! S i = Some r' -> snd r = fst r'.
Proof.
  revert a. induction rs as [|[l u] rs IH]; simpl; intros a H i r r' Hi Hj.
  - discriminate.
  - destruct H as (-> & Hlt & Hlen & H). destruct i as [|i]; simpl in *.
    + inversion Hi; subst r. destruct rs as [|[l' u'] rs']; [discriminate|].
      simpl in *. inversion Hj; subst r'. simpl. destruct H as (-> & _).
      reflexivity.
    + eapply IH; eauto.
Qed.

Lemma chained_order (rs : list (Z * Z)) (a b : Z) :
  chained chunk a rs b ->
  forall (i j : nat) r r',
    (i < j)%nat -> rs !! i = Some r -> rs !! j = Some r' ->
    fst r < fst r' /\ snd r <= fst r'.
Proof.
  revert a. induction rs as [|[l u] rs IH]; simpl; intros a H i j r r' Hij Hi Hj.
  - discriminate.
  - destruct H as (-> & Hlt & Hlen & H).
    destruct j as [|j]; [lia|]. simpl in Hj.
    destruct i as [|i]; simpl in Hi.
    + inversion Hi; subst r. simpl.
      apply list_elem_of_lookup_2, list_elem_of_In in Hj.
      destruct (chained_bounds _ _ _ H r' Hj) as (? & ? & ? & ?). lia.
    + apply (IH _ H i j r r'); [lia|assumption|assumption].
Qed.

End Chained.

(** The loop from any offset it can reach: it returns once the fuel exceeds
    the number of iterations, and its ranges run from the offset to the
    object size, the [i]-th being
    [(offset + i * chunk, min objsize (offset + (i + 1) * chunk))]. *)
Lemma chunk_loop_from (c s : Z) :
  0 < c < 2 ^ 64 -> 0 <= s < 2 ^ 63 ->
  forall (fuel : nat) (offset : Z),
    0 <= offset -> offset = 0 \/ c <= offset ->
    Z.max 0 (s - offset) + c <= Z.of_nat fuel * c ->
    exists rs,
      chunk_loop fuel c s offset = Some rs
      /\ chained c (Z.min s offset) rs s
      /\ (forall (i : nat) r,
            rs !! i = Some r ->
            r = (offset + Z.of_nat i * c,
                 Z.min s (offset + (Z.of_nat i + 1) * c))).
Proof.
  intros Hc Hs. induction fuel as [|fuel IH]; intros offset H0 Hinv Hfuel.
  - simpl in Hfuel. lia.
  - rewrite Nat2Z.inj_succ in Hfuel.
    replace (Z.succ (Z.of_nat fuel) * c) with (Z.of_nat fuel * c + c)
      in Hfuel by ring.
    simpl. destruct (Z.ltb_spec offset s) as [Hlt|Hge].
    + assert (Hw : wrap64 (offset + c) = offset + c).
      { apply wrap64_small. change (2 ^ 64) with (2 * 2 ^ 63). lia. }
      rewrite Hw.
      assert (Hpos : 1 <= Z.of_nat fuel).
      { destruct (Z.of_nat fuel) eqn:F; lia. }
      assert (Hone : c <= Z.of_nat fuel * c) by nia.
      destruct (IH (offset + c)) as (rest & E & Hch & Hnth); [lia|lia|lia|].
      rewrite E. eexists. split; [reflexivity|]. split.
      * simpl. split; [lia|]. split; [lia|]. split; [lia|]. exact Hch.
      * intros [|i] r Hi; simpl in Hi.
        -- inversion Hi. f_equal; [lia|]. f_equal. simpl. lia.
        -- apply Hnth in Hi. subst r. rewrite Nat2Z.inj_succ.
           f_equal; [ring|]. f_equal. ring.
    + exists []. split; [reflexivity|]. split.
      * simpl. lia.
      * intros i r Hi. discriminate.
Qed.

Lemma chunk_fuel_enough (c s : Z) (fuel : nat) :
  0 < c -> 0 <= s -> (Z.to_nat (s / c) + 2 <= fuel)%nat ->
  Z.max 0 (s - 0) + c <= Z.of_nat fuel * c.
Proof.
  intros Hc Hs Hf.
  assert (Hq : 0 <= s / c) by (apply Z.div_pos; lia).
  assert (Hd : s < c * (s / c) + c).
  { pose proof (Z.mod_pos_bound s c Hc). pose proof (Z.div_mod s c). lia. }
  assert (Hn : s / c + 2 <= Z.of_nat fuel) by lia.
  replace (Z.max 0 (s - 0)) with s by lia. nia.
Qed.

(** C1. For an object size [s] that [GetSize] can report without being
    negative and a chunk size [c > 0] of type [unsigned long long], the loop
    returns (any fuel above the number of chunks will do) and its
    [(lower, upper)] pairs start at 0, each begin where the one before ended,
    are strictly increasing and pairwise disjoint, hold between 1 and [c]
    bytes each, and contain exactly the bytes of [0, s); there is none when
    [s = 0]. *)
Theorem chunk_loop_partition (c s : Z) (fuel : nat) :
  0 < c < 2 ^ 64 -> 0 <= s < 2 ^ 63 ->
  (Z.to_nat (s / c) + 2 <= fuel)%nat ->
  exists ranges,
    chunk_loop fuel c (wrap64 s) 0 = Some ranges
    /\ chained c 0 ranges s
    /\ (forall (i : nat) r r',
          ranges !! i = Some r -> ranges !! S i = Some r' -> snd r = fst r')
    /\ (forall (i j : nat) r r',
          (i < j)%nat -> ranges !! i = Some r -> ranges !! j = Some r' ->
          fst r < fst r' /\ snd r <= fst r')
    /\ (forall b, 0 <= b < s <-> exists r, In r ranges /\ in_range b r)
    /\ (forall r, In r ranges -> 0 < snd r - fst r <= c)
    /\ (s = 0 -> ranges = []).
Proof.
  intros Hc Hs Hfuel.
  rewrite wrap64_small by (change (2 ^ 64) with (2 * 2 ^ 63); lia).
  destruct (chunk_loop_from c s Hc Hs fuel 0) as (rs & E & Hch & Hnth);
    [lia|now left|apply chunk_fuel_enough; lia|].
  replace (Z.min s 0) with 0 in Hch by lia.
  exists rs. split; [exact E|]. split; [exact Hch|].
  split; [exact (chained_succ c rs 0 s Hch)|].
  split; [exact (chained_order c rs 0 s Hch)|].
  split.
  { intros b. split.
    - apply (chained_cover c rs 0 s Hch).
    - intros (r & Hr & Hb). unfold in_range in Hb.
      destruct (chained_bounds c rs 0 s Hch r Hr) as (? & ? & ? & ?). lia. }
  split.
  { intros r Hr.
    destruct (chained_bounds c rs 0 s Hch r Hr) as (? & ? & ? & ?). lia. }
  intros ->. destruct rs as [|[l u] rs]; [reflexivity|].
  simpl in Hch. destruct Hch as (-> & Hlt & _ & Hch).
  apply chained_le in Hch. lia.
Qed.

Lemma chunk_loop_partition_witness :
  exists ranges,
    chunk_loop 4 4 (wrap64 10) 0 = Some ranges
    /\ chained 4 0 ranges 10
    /\ (forall (i : nat) r r',
          ranges !! i = Some r -> ranges !! S i = Some r' -> snd r = fst r')
    /\ (forall (i j : nat) r r',
          (i < j)%nat -> ranges !! i = Some r -> ranges !! j = Some r' ->
          fst r < fst r' /\ snd r <= fst r')
    /\ (forall b, 0 <= b < 10 <-> exists r, In r ranges /\ in_range b r)
    /\ (forall r, In r ranges -> 0 < snd r - fst r <= 4)
    /\ (10 = 0 -> ranges = []).
Proof.
  apply (chunk_loop_partition 4 10 4); [lia | lia | vm_compute; lia].
Defined.

(** More fuel does not change what the loop returns. *)
Lemma chunk_loop_more_fuel (c s : Z) (fuel extra : nat) :
  forall offset rs,
    chunk_loop fuel c s offset = Some rs ->
    chunk_loop (fuel + extra) c s offset = Some rs.
Proof.
  induction fuel as [|fuel IH]; intros offset rs H; simpl in *.
  - discriminate.
  - destruct (offset <? s); [|exact H].
    destruct (chunk_loop fuel c s (wrap64 (offset + c))) as [rest|] eqn:E;
      [|discriminate].
    now rewrite (IH _ _ E).
Qed.

Lemma enumerate_object_more_fuel (fuel extra : nat) (o : S3Object) acts :
  enumerate_object fuel o = Some acts ->
  enumerate_object (fuel + extra) o = Some acts.
Proof.
  unfold enumerate_object.
  destruct (chunk_loop fuel _ _ _) as [rs|] eqn:E; [|discriminate].
  intros H. now rewrite (chunk_loop_more_fuel _ _ _ extra _ _ E).
Qed.

Lemma enumerate_objects_more_fuel (fuel extra : nat) (os : list S3Object) :
  forall acts,
    enumerate_objects fuel os = Some acts ->
    enumerate_objects (fuel + extra) os = Some acts.
Proof.
  induction os as [|o os IH]; intros acts H; simpl in *; [exact H|].
  destruct (enumerate_object fuel o) as [a|] eqn:Ea; [|discriminate].
  destruct (enumerate_objects fuel os) as [b|] eqn:Eb; [|discriminate].
  now rewrite (enumerate_object_more_fuel _ extra _ _ Ea), (IH _ eq_refl).
Qed.

(** C7. With the chunk size of the program, 4294967296, an object of size 0
    gets no task, one of size 10 gets the single range [0,10), one of size
    5000000000 gets [0,4294967296) and [4294967296,5000000000); listing the
    three pushes three tasks in all. *)
Theorem small_bucket_scenario (fuel : nat) :
  ReadChunkSize = 4294967296
  /\ chunk_loop (3 + fuel) ReadChunkSize (wrap64 0) 0 = Some []
  /\ chunk_loop (3 + fuel) ReadChunkSize (wrap64 10) 0 = Some [(0, 10)]
  /\ chunk_loop (3 + fuel) ReadChunkSize (wrap64 5000000000) 0
       = Some [(0, 4294967296); (4294967296, 5000000000)]
  /\ enumerate_objects (3 + fuel)
       [ {| GetKey := "empty"; GetSize := 0 |};
         {| GetKey := "small"; GetSize := 10 |};
         {| GetKey := "large"; GetSize := 5000000000 |} ]
       = Some [ APush "small" "bytes=0-10";
                APush "large" "bytes=0-4294967296";
                APush "large" "bytes=4294967296-5000000000" ].
Proof.
  split; [reflexivity|].
  split; [now apply chunk_loop_more_fuel|].
  split; [now apply chunk_loop_more_fuel|].
  split; [now apply chunk_loop_more_fuel|].
  now apply enumerate_objects_more_fuel.
Qed.

(** * The range header *)

Lemma to_string_inj (a b : Z) :
  0 <= a -> 0 <= b -> to_string a = to_string b -> a = b.
Proof.
  unfold to_string. intros Ha Hb H.
  assert (Hnil : forall n : N, N.to_uint n <> Decimal.Nil).
  { intros [|p]; [discriminate|apply DecimalPos.Unsigned.to_uint_nonnil]. }
  apply (f_equal NilZero.uint_of_string) in H.
  rewrite !NilZero.usu in H by apply Hnil. inversion H as [H'].
  apply (f_equal N.of_uint) in H'. rewrite !DecimalN.Unsigned.of_to in H'.
  lia.
Qed.

(** C9. [ConstructByteRange lower upper] is ["bytes="], the decimal digits of
    [lower], ["-"], the decimal digits of [upper]. The task pushed for chunk
    [i] of an object is built from the offset [i * ReadChunkSize] and the
    exclusive bound [min size (offset + ReadChunkSize)]; so of two
    consecutive tasks of one object the first header ends with the number
    the second header starts with. *)
Theorem range_header_boundary :
  (forall lower upper,
      ConstructByteRange lower upper
        = ("bytes=" ++ to_string lower ++ "-" ++ to_string upper)%string)
  /\ ConstructByteRange 0 5 = "bytes=0-5"%string
  /\ (forall (s3_object : S3Object) (fuel : nat),
        0 <= GetSize s3_object < 2 ^ 63 ->
        (Z.to_nat (GetSize s3_object / ReadChunkSize) + 2 <= fuel)%nat ->
        exists pushes,
          enumerate_object fuel s3_object = Some pushes
          /\ (forall (i : nat) a,
                pushes !! i = Some a ->
                let offset := Z.of_nat i * ReadChunkSize in
                a = APush (GetKey s3_object)
                      (ConstructByteRange offset
                         (Z.min (GetSize s3_object) (offset + ReadChunkSize))))
          /\ (forall (i : nat) a a',
                pushes !! i = Some a -> pushes !! S i = Some a' ->
                exists lower boundary upper,
                  a = APush (GetKey s3_object)
                        (ConstructByteRange lower boundary)
                  /\ a' = APush (GetKey s3_object)
                         (ConstructByteRange boundary upper)
                  /\ boundary = lower + ReadChunkSize
                  /\ boundary < GetSize s3_object)).
Proof.
  split; [reflexivity|]. split; [reflexivity|].
  intros o fuel Hs Hfuel. unfold enumerate_object.
  assert (Hc : 0 < ReadChunkSize < 2 ^ 64) by (rewrite ReadChunkSize_value; lia).
  rewrite wrap64_small by (change (2 ^ 64) with (2 * 2 ^ 63); lia).
  destruct (chunk_loop_from ReadChunkSize (GetSize o) Hc Hs fuel 0)
    as (rs & E & Hch & Hnth);
    [lia|now left|apply chunk_fuel_enough; lia|].
  rewrite E. eexists. split; [reflexivity|].
  assert (Hith : forall (i : nat) a,
             ((fun r => APush (GetKey o) (ConstructByteRange r.1 r.2)) <$> rs)
               !! i = Some a ->
             rs !! i = Some (Z.of_nat i * ReadChunkSize,
                             Z.min (GetSize o)
                               (Z.of_nat i * ReadChunkSize + ReadChunkSize))
             /\ a = APush (GetKey o)
                      (ConstructByteRange (Z.of_nat i * ReadChunkSize)
                         (Z.min (GetSize o)
                            (Z.of_nat i * ReadChunkSize + ReadChunkSize)))).
  { intros i a Hi. rewrite list_lookup_fmap in Hi.
    destruct (rs !! i) as [r|] eqn:Er; [|discriminate].
    pose proof (Hnth i r Er) as Hr. simpl in Hi. inversion Hi; subst a.
    replace (0 + Z.of_nat i * ReadChunkSize)
      with (Z.of_nat i * ReadChunkSize) in Hr by lia.
    replace (0 + (Z.of_nat i + 1) * ReadChunkSize)
      with (Z.of_nat i * ReadChunkSize + ReadChunkSize) in Hr by lia.
    subst r. split; reflexivity. }
  split.
  - intros i a Hi. simpl. now destruct (Hith i a Hi).
  - intros i a a' Hi Hj.
    destruct (Hith i a Hi) as (Ri & ->).
    destruct (Hith (S i) a' Hj) as (Rj & ->).
    replace (Z.of_nat (S i) * ReadChunkSize)
      with (Z.of_nat i * ReadChunkSize + ReadChunkSize) in * by lia.
    apply list_elem_of_lookup_2, list_elem_of_In in Rj.
    destruct (chained_bounds _ _ _ _ Hch _ Rj) as (_ & Hup & _ & _).
    simpl in Hup.
    exists (Z.of_nat i * ReadChunkSize),
           (Z.of_nat i * ReadChunkSize + ReadChunkSize),
           (Z.min (GetSize o)
              (Z.of_nat i * ReadChunkSize + ReadChunkSize + ReadChunkSize)).
    replace (Z.min (GetSize o) (Z.of_nat i * ReadChunkSize + ReadChunkSize))
      with (Z.of_nat i * ReadChunkSize + ReadChunkSize) by lia.
    repeat split; lia.
Qed.

Lemma range_header_boundary_witness :
  exists pushes,
    enumerate_object 3 {| GetKey := "large"; GetSize := 5000000000 |}
      = Some pushes
    /\ pushes !! 0%nat = Some (APush "large" "bytes=0-4294967296")
    /\ pushes !! 1%nat
         = Some (APush "large" "bytes=4294967296-5000000000").
Proof.
  destruct range_header_boundary as (_ & _ & H).
  destruct (H {| GetKey := "large"; GetSize := 5000000000 |} 3%nat)
    as (pushes & E & _ & _); [simpl; lia | vm_compute; lia |].
  exists pushes. split; [exact E|].
  vm_compute in E. inversion E. split; reflexivity.
Defined.

(** * The reader threads *)

Section Readers.

Variable s3_client : S3Client.
Variable bucket_name : string.

(** A property that holds of a starting state and is kept by every turn
    holds after every schedule. *)
Lemma turns_invariant (P : System * list (Tid * Event) -> Prop) :
  (forall st t, P st -> P (turn s3_client bucket_name st t)) ->
  forall schedule st, P st -> P (fold_left (turn s3_client bucket_name) schedule st).
Proof.
  intros Hturn. induction schedule as [|t schedule IH]; intros st H; simpl.
  - exact H.
  - apply IH, Hturn, H.
Qed.

Lemma events_of_app (i : nat) (xs ys : list (Tid * Event)) :
  events_of i (xs ++ ys) = events_of i xs ++ events_of i ys.
Proof.
  induction xs as [|[[|j] ev] xs IH]; simpl; auto.
  destruct (Nat.eqb i j); simpl; now rewrite IH.
Qed.

Lemma step_justified pc q pc' q' text ev evs :
  Retriever_step s3_client bucket_name pc q = Some (pc', q', text, ev) ->
  pc_justified pc evs -> pc_justified pc' (evs ++ [ev]).
Proof.
  destruct pc; simpl; intros H J.
  - destruct (Pop q) as [[kr|] q1]; inversion H; subst; simpl; eauto.
  - inversion H; subst; simpl; auto.
  - destruct (end_marker_ q); inversion H; subst; simpl; auto.
    destruct J as (before & ->). exists before.
    now rewrite <- app_assoc.
  - inversion H; subst; simpl; auto.
  - discriminate.
Qed.

Lemma turn_justified st t :
  readers_justified st ->
  readers_justified (turn s3_client bucket_name st t).
Proof.
  destruct st as [s tr]. unfold readers_justified, turn, sys_step. simpl.
  intros J. destruct (exit_status s); [exact J|].
  destruct t as [|j].
  - unfold main_step.
    destruct (main_thread s) as [|a rest]; [exact J|].
    assert (Hev : forall i ev, events_of i (tr ++ [(TMain, ev)]) = events_of i tr).
    { intros i ev. rewrite events_of_app. simpl. apply app_nil_r. }
    destruct a; simpl; try (intros i pc Hi; rewrite Hev; now apply J).
    + intros i pc Hi. rewrite Hev.
      apply lookup_app_Some in Hi as [Hi|[_ Hi]]; [now apply J|].
      apply list_lookup_singleton_Some in Hi as [_ <-]. exact I.
    + destruct (reader_threads s !! i) as [[]|]; simpl; try exact J.
      intros k pc Hk. rewrite Hev. now apply J.
  - unfold reader_step.
    destruct (reader_threads s !! j) as [pcj|] eqn:Ej; [|exact J].
    destruct (Retriever_step s3_client bucket_name pcj (objects s)) as [[[[pc' q'] text] ev]|] eqn:Es;
      [|exact J].
    simpl. intros i pc Hi. rewrite events_of_app. simpl.
    destruct (Nat.eqb_spec i j) as [->|Hij].
    + rewrite list_lookup_insert_eq in Hi
        by (now apply lookup_lt_Some in Ej).
      inversion Hi; subst pc.
      eapply step_justified; [exact Es|now apply J].
    + rewrite list_lookup_insert_ne in Hi by congruence.
      rewrite app_nil_r. now apply J.
Qed.

(** C5. Draining, a reader that pops a task retrieves it and is back at the
    [Pop]; one that finds the queue empty checks the flag, and with the flag
    clear sleeps 10 ms and is back at the [Pop]. The only step that ends a
    reader is an [IsEnd] that returned true, taken from the position a reader
    holds only right after an empty [Pop]: in every run of every program,
    under every schedule, the events of a reader that has returned end with
    an empty [Pop] followed by [IsEnd] returning true. *)
Theorem Retriever_exit_condition :
  (forall q kr rest,
      keylist_ q = kr :: rest ->
      Retriever_step s3_client bucket_name Draining q
        = Some (Retrieving kr,
                {| keylist_ := rest; end_marker_ := end_marker_ q |},
                ""%string, EvPop (Some kr)))
  /\ (forall q kr,
        Retriever_step s3_client bucket_name (Retrieving kr) q
          = Some (Draining, q,
                  RetrieveObjectRange s3_client bucket_name (fst kr) (snd kr),
                  EvRetrieve kr))
  /\ (forall q,
        keylist_ q = [] ->
        Retriever_step s3_client bucket_name Draining q = Some (IdleWait, q, ""%string, EvPop None))
  /\ (forall q,
        end_marker_ q = false ->
        Retriever_step s3_client bucket_name IdleWait q = Some (Sleeping, q, ""%string, EvIsEnd false))
  /\ (forall q, Retriever_step s3_client bucket_name Sleeping q = Some (Draining, q, ""%string, EvSleep 10))
  /\ (forall q,
        end_marker_ q = true ->
        Retriever_step s3_client bucket_name IdleWait q = Some (Done, q, ""%string, EvIsEnd true))
  /\ (forall pc q q' text ev,
        Retriever_step s3_client bucket_name pc q = Some (Done, q', text, ev) ->
        pc = IdleWait /\ ev = EvIsEnd true /\ end_marker_ q = true)
  /\ (forall pc q pc' q' text ev,
        Retriever_step s3_client bucket_name pc q = Some (pc', q', text, ev) ->
        pc' = IdleWait ->
        pc = Draining /\ ev = EvPop None /\ keylist_ q = [])
  /\ (forall program schedule (i : nat),
        let final := run s3_client bucket_name schedule (initial program) in
        reader_threads (fst final) !! i = Some Done ->
        exists before,
          events_of i (snd final) = before ++ [EvPop None; EvIsEnd true]).
Proof.
  split. { intros q kr rest E. simpl. now rewrite (Pop_cons q kr rest E). }
  split. { reflexivity. }
  split. { intros q E. simpl. now rewrite (Pop_nil q E). }
  split. { intros q E. simpl. now rewrite E. }
  split. { reflexivity. }
  split. { intros q E. simpl. now rewrite E. }
  split.
  { intros pc q q' text ev H. destruct pc; simpl in H.
    - destruct (Pop q) as [[kr|] q1]; inversion H.
    - inversion H.
    - destruct (end_marker_ q) eqn:E; inversion H. auto.
    - inversion H.
    - discriminate. }
  split.
  { intros pc q pc' q' text ev H ->. destruct pc; simpl in H.
    - unfold Pop in H. destruct (keylist_ q) eqn:E; inversion H. auto.
    - inversion H.
    - destruct (end_marker_ q); inversion H.
    - inversion H.
    - discriminate. }
  intros program schedule i final Hdone.
  assert (J : readers_justified final).
  { unfold final, run. apply turns_invariant; [apply turn_justified|].
    intros k pc Hk. simpl in Hk. discriminate. }
  exact (J i Done Hdone).
Qed.

(** A reader step takes at most the head off the queue and never touches the
    flag: readers push nothing. *)
Lemma Retriever_step_queue pc q pc' q' text ev :
  Retriever_step s3_client bucket_name pc q = Some (pc', q', text, ev) ->
  end_marker_ q' = end_marker_ q
  /\ (keylist_ q' = keylist_ q
      \/ exists kr, pc = Draining /\ keylist_ q = kr :: keylist_ q').
Proof.
  destruct pc; simpl; intros H.
  - unfold Pop in H. destruct (keylist_ q) as [|kr rest] eqn:E;
      inversion H; subst; simpl; (split; [reflexivity|]); eauto.
  - inversion H; subst. split; [reflexivity|now left].
  - destruct (end_marker_ q) eqn:E; inversion H; subst;
      (split; [assumption|now left]).
  - inversion H; subst. split; [reflexivity|now left].
  - discriminate.
Qed.

(** C6. When the GET of a popped task fails, [RetrieveObjectRange] writes the
    one line ["GetObject error: <name> <message>"], and the reader's step
    leaves the queue as it was (the task is not put back), leaves the other
    readers and the process running, and puts the reader back at the [Pop]
    of the inner loop, which is its next step. No reader step ever adds to
    the queue. *)
Theorem retrieval_failure_handling (kr : ReadKey) :
  let outcome :=
    GetObject s3_client
      {| GetBucket := bucket_name; GetObjectKey := fst kr;
         GetRange := snd kr |} in
  let line :=
    ("GetObject error: " ++ GetExceptionName (GetGetError outcome) ++ " "
       ++ GetMessage (GetGetError outcome) ++ endl)%string in
  GetIsSuccess outcome = false ->
  RetrieveObjectRange s3_client bucket_name (fst kr) (snd kr) = line
  /\ (forall q,
        Retriever_step s3_client bucket_name (Retrieving kr) q
          = Some (Draining, q, line, EvRetrieve kr))
  /\ (forall q,
        exists pc',
          Retriever_step s3_client bucket_name Draining q
            = Some (pc', snd (Pop q), ""%string, EvPop (fst (Pop q)))
          /\ pc' <> Done)
  /\ (forall s (i : nat),
        exit_status s = None ->
        reader_threads s !! i = Some (Retrieving kr) ->
        sys_step s3_client bucket_name (TReader i) s
          = Some ({| objects := objects s;
                     cout := (cout s ++ line)%string;
                     main_thread := main_thread s;
                     reader_threads := <[i := Draining]> (reader_threads s);
                     exit_status := None |}, EvRetrieve kr))
  /\ (forall pc q pc' q' text ev,
        Retriever_step s3_client bucket_name pc q = Some (pc', q', text, ev) ->
        keylist_ q' = keylist_ q
        \/ exists popped, keylist_ q = popped :: keylist_ q').
Proof.
  intros outcome line Hfail.
  assert (Hline : RetrieveObjectRange s3_client bucket_name (fst kr) (snd kr)
                  = line).
  { unfold RetrieveObjectRange. fold outcome. now rewrite Hfail. }
  split; [exact Hline|].
  split. { intros q. simpl. now rewrite Hline. }
  split.
  { intros q. simpl. destruct (Pop q) as [[t|] q1]; simpl;
      eexists; (split; [reflexivity|discriminate]). }
  split.
  { intros s i Hexit Hi. unfold sys_step, reader_step.
    rewrite Hexit, Hi. simpl. now rewrite Hline. }
  intros pc q pc' q' text ev H.
  destruct (Retriever_step_queue _ _ _ _ _ _ H) as (_ & [E|(t & _ & E)]);
    eauto.
Qed.

(** ** Readers return once the flag is set *)

Lemma poll_bound_mono pc (k k' : nat) :
  (k' <= k)%nat -> (poll_bound pc k' <= poll_bound pc k)%nat.
Proof. destruct pc; simpl; lia. Qed.

(** A step of reader [i] itself, with the flag set, brings it closer to its
    return. *)
Lemma Retriever_step_progress pc q pc' q' text ev :
  end_marker_ q = true ->
  Retriever_step s3_client bucket_name pc q = Some (pc', q', text, ev) ->
  (poll_bound pc' (length (keylist_ q')) + 1
   <= poll_bound pc (length (keylist_ q)))%nat.
Proof.
  intros Hend. destruct pc; simpl; intros H.
  - unfold Pop in H. destruct (keylist_ q) as [|kr rest] eqn:E;
      inversion H; subst; simpl; lia.
  - inversion H; subst; simpl; lia.
  - rewrite Hend in H. inversion H; subst; simpl; lia.
  - inversion H; subst; simpl; lia.
  - discriminate.
Qed.

Lemma Retriever_step_enabled pc q :
  pc <> Done -> Retriever_step s3_client bucket_name pc q <> None.
Proof.
  destruct pc; simpl; intros H; try congruence.
  - destruct (Pop q) as [[kr|] q1]; discriminate.
  - destruct (end_marker_ q); discriminate.
Qed.

(** Whatever thread moves, a reader that is still wanted stays wanted, and
    its bound does not grow; its own moves lower it. *)
Lemma sys_step_progress (i : nat) t s s' ev pc :
  sys_step s3_client bucket_name t s = Some (s', ev) ->
  reader_threads s !! i = Some pc ->
  pc = Done \/ draining_out i s ->
  exists pc',
    reader_threads s' !! i = Some pc'
    /\ (pc' = Done \/ draining_out i s')
    /\ (poll_bound pc' (length (keylist_ (objects s')))
          + turns_of i [t]
        <= poll_bound pc (length (keylist_ (objects s))))%nat.
Proof.
  unfold sys_step. destruct (exit_status s) eqn:Hexit; [discriminate|].
  intros Hstep Hi Hlive. destruct t as [|j].
  - (* the main thread moves *)
    unfold main_step in Hstep.
    destruct (main_thread s) as [|a rest] eqn:Hmain; [discriminate|].
    assert (Hkeep : forall s1,
               reader_threads s1 = reader_threads s ->
               objects s1 = objects s \/ objects s1 = SetEnd (objects s) ->
               exit_status s1 = None ->
               main_thread s1 = rest ->
               is_push a = false -> is_exit a = false ->
               (forall j, a = AJoin j -> reader_threads s !! j = Some Done) ->
               exists pc',
                 reader_threads s1 !! i = Some pc'
                 /\ (pc' = Done \/ draining_out i s1)
                 /\ (poll_bound pc' (length (keylist_ (objects s1)))
                       + turns_of i [TMain]
                     <= poll_bound pc (length (keylist_ (objects s))))%nat).
    { intros s1 Hr Ho Hx Hm Hp He Hj. exists pc. rewrite Hr.
      split; [exact Hi|].
      assert (Hlen : keylist_ (objects s1) = keylist_ (objects s)).
      { destruct Ho as [->| ->]; reflexivity. }
      split; [|rewrite Hlen; simpl; lia].
      destruct Hlive as [->|(_ & Hend & Hnp & Hjbe)]; [now left|].
      destruct pc; try (now left); right;
        (split; [exact Hx|]);
        (split; [destruct Ho as [->| ->]; [exact Hend|reflexivity]|]);
        rewrite Hm, Hmain in *; simpl in Hnp;
        apply andb_true_iff in Hnp as [_ Hnp];
        (split; [exact Hnp|]);
        destruct a; simpl in *; try discriminate; try exact Hjbe;
        (apply orb_true_iff in Hjbe as [Hij|Hjbe]; [|exact Hjbe]);
        apply Nat.eqb_eq in Hij; subst;
        rewrite (Hj _ eq_refl) in Hi; discriminate. }
    destruct a.
    + inversion Hstep; subst; clear Hstep.
      apply Hkeep; simpl; auto; discriminate.
    + (* a new reader is started *)
      inversion Hstep; subst; clear Hstep. simpl.
      exists pc. split; [now apply lookup_app_l_Some|].
      split; [|simpl; lia].
      destruct Hlive as [->|(_ & Hend & Hnp & Hjbe)]; [now left|].
      right. unfold draining_out. simpl. rewrite Hmain in *.
      simpl in Hnp, Hjbe. auto.
    + inversion Hstep; subst; clear Hstep.
      apply Hkeep; simpl; auto; discriminate.
    + (* a push: not while reader [i] is draining out *)
      inversion Hstep; subst; clear Hstep. simpl.
      exists pc. split; [exact Hi|].
      destruct Hlive as [->|(_ & _ & Hnp & _)].
      * split; [now left|simpl; lia].
      * rewrite Hmain in Hnp. simpl in Hnp. discriminate.
    + inversion Hstep; subst; clear Hstep.
      apply Hkeep; simpl; auto; discriminate.
    + destruct (reader_threads s !! i0) as [[]|] eqn:Hj; try discriminate.
      inversion Hstep; subst; clear Hstep.
      apply Hkeep; simpl; auto. intros j Ej. now inversion Ej; subst.
    + (* the process ends: only once reader [i] was joined *)
      inversion Hstep; subst; clear Hstep. simpl.
      exists pc. split; [exact Hi|].
      destruct Hlive as [->|(_ & _ & _ & Hjbe)].
      * split; [now left|simpl; lia].
      * rewrite Hmain in Hjbe. simpl in Hjbe. discriminate.
  - (* reader [j] moves *)
    unfold reader_step in Hstep.
    destruct (reader_threads s !! j) as [pcj|] eqn:Ej; [|discriminate].
    destruct (Retriever_step s3_client bucket_name pcj (objects s))
      as [[[[pc' q'] text] ev']|] eqn:Es; [|discriminate].
    inversion Hstep; subst; clear Hstep. simpl.
    destruct (Retriever_step_queue _ _ _ _ _ _ Es) as (Hflag & Hkeys).
    assert (Hlen : (length (keylist_ q') <= length (keylist_ (objects s)))%nat).
    { destruct Hkeys as [->|(kr & _ & ->)]; simpl; lia. }
    destruct (Nat.eqb_spec i j) as [->|Hij].
    + rewrite Hi in Ej. inversion Ej; subst pcj.
      exists pc'. split.
      { apply list_lookup_insert_eq. now apply lookup_lt_Some in Hi. }
      destruct Hlive as [->|(Hx & Hend & Hnp & Hjbe)]; [discriminate|].
      split; [right; unfold draining_out; simpl; rewrite Hflag; auto|].
      pose proof (Retriever_step_progress _ _ _ _ _ _ Hend Es). lia.
    + exists pc. split.
      { rewrite list_lookup_insert_ne by congruence. exact Hi. }
      split.
      * destruct Hlive as [->|(Hx & Hend & Hnp & Hjbe)]; [now left|].
        right. unfold draining_out. simpl. rewrite Hflag. auto.
      * pose proof (poll_bound_mono pc _ _ Hlen). lia.
Qed.

(** Once the flag is set and the main thread has only joins and its return
    left, a reader returns within [poll_bound] turns of its own, whatever
    the other threads do in between. *)
Lemma reader_returns (i : nat) :
  forall schedule s tr pc,
    reader_threads s !! i = Some pc ->
    pc = Done \/ draining_out i s ->
    (poll_bound pc (length (keylist_ (objects s))) <= turns_of i schedule)%nat ->
    reader_threads
      (fst (fold_left (turn s3_client bucket_name) schedule (s, tr))) !! i
    = Some Done.
Proof.
  induction schedule as [|t schedule IH]; intros s tr pc Hi Hlive Hbound.
  - simpl in *. destruct pc; simpl in Hbound; try lia. exact Hi.
  - simpl. unfold turn at 2. simpl.
    destruct (sys_step s3_client bucket_name t s) as [[s' ev]|] eqn:Hstep.
    + destruct (sys_step_progress i t s s' ev pc Hstep Hi Hlive)
        as (pc' & Hi' & Hlive' & Hdec).
      apply (IH s' _ pc' Hi' Hlive').
      assert (turns_of i (t :: schedule)
              = (turns_of i [t] + turns_of i schedule)%nat) as Hsplit.
      { destruct t as [|j]; simpl; auto. destruct (Nat.eqb i j); auto. }
      lia.
    + apply (IH s tr pc Hi Hlive).
      destruct t as [|j]; simpl in Hbound; [exact Hbound|].
      destruct (Nat.eqb_spec i j) as [->|Hij]; [|exact Hbound].
      (* a lost turn of the reader itself: it had returned already *)
      assert (Hpc : pc = Done).
      { destruct Hlive as [->|(Hx & _)]; [reflexivity|].
        unfold sys_step, reader_step in Hstep. rewrite Hx, Hi in Hstep.
        destruct (Retriever_step s3_client bucket_name pc (objects s))
          as [[[[pc' q'] text] ev]|] eqn:Es; [discriminate|].
        destruct pc; try reflexivity;
          now apply Retriever_step_enabled in Es. }
      subst pc. simpl. lia.
Qed.

(** Reader turns leave the main thread and the exit status alone. *)
Lemma reader_turn_frame (j : nat) st :
  main_thread (fst (turn s3_client bucket_name st (TReader j)))
    = main_thread (fst st)
  /\ exit_status (fst (turn s3_client bucket_name st (TReader j)))
     = exit_status (fst st)
  /\ length (reader_threads (fst (turn s3_client bucket_name st (TReader j))))
     = length (reader_threads (fst st))
  /\ end_marker_ (objects (fst (turn s3_client bucket_name st (TReader j))))
     = end_marker_ (objects (fst st)).
Proof.
  destruct st as [s tr]. unfold turn, sys_step, reader_step. simpl.
  destruct (exit_status s) eqn:Hx; [auto|].
  destruct (reader_threads s !! j) as [pcj|] eqn:Ej; [|auto].
  destruct (Retriever_step s3_client bucket_name pcj (objects s))
    as [[[[pc' q'] text] ev]|] eqn:Es; [|auto].
  simpl. destruct (Retriever_step_queue _ _ _ _ _ _ Es) as (Hflag & _).
  rewrite length_insert. auto.
Qed.

(** ** Runs of [main] *)

Lemma main_tail_step (joined : nat) :
  (joined < ThreadCount)%nat ->
  main_tail joined = AJoin joined :: main_tail (S joined).
Proof.
  intros H. unfold main_tail.
  replace (ThreadCount - joined)%nat with (S (ThreadCount - S joined)) by lia.
  reflexivity.
Qed.

Lemma main_tail_end : main_tail ThreadCount = [AExit 0].
Proof. unfold main_tail. now rewrite Nat.sub_diag. Qed.

Lemma turn_main_invariant st t :
  main_invariant (fst st) ->
  main_invariant (fst (turn s3_client bucket_name st t)).
Proof.
  destruct st as [s tr]. unfold turn. simpl.
  destruct (sys_step s3_client bucket_name t s) as [[s' ev]|] eqn:Hstep;
    [simpl|auto].
  unfold sys_step in Hstep. unfold main_invariant at 1.
  destruct (exit_status s) eqn:Hx; [discriminate|].
  intros [(Hflag & pre & Hmain & Hquiet & Hcount)
         |(Hflag & Hlen & joined & Hj & Hmain & Hdone)].
  - (* before SetEnd *)
    destruct t as [|k].
    + unfold main_step in Hstep. rewrite Hmain in Hstep.
      destruct pre as [|a pre]; simpl in Hstep.
      * inversion Hstep; subst; clear Hstep.
        unfold main_invariant. simpl. rewrite Hx. right.
        split; [reflexivity|]. simpl in Hcount.
        split; [lia|]. exists 0%nat.
        split; [lia|]. split; [reflexivity|]. intros i Hi. lia.
      * simpl in Hquiet. apply andb_true_iff in Hquiet as [Ha Hquiet].
        destruct a; simpl in Ha; try discriminate;
          inversion Hstep; subst; clear Hstep;
          unfold main_invariant; simpl; rewrite Hx; left;
          (split; [exact Hflag|]); exists pre;
          (split; [reflexivity|]); (split; [exact Hquiet|]);
          simpl in Hcount; rewrite ?length_app; simpl; lia.
    + unfold reader_step in Hstep.
      destruct (reader_threads s !! k) as [pck|] eqn:Ek; [|discriminate].
      destruct (Retriever_step s3_client bucket_name pck (objects s))
        as [[[[pc' q'] text] ev']|] eqn:Es; [|discriminate].
      inversion Hstep; subst; clear Hstep.
      destruct (Retriever_step_queue _ _ _ _ _ _ Es) as (Hf & _).
      unfold main_invariant. simpl. rewrite Hx. left.
      split; [congruence|]. exists pre.
      split; [exact Hmain|]. split; [exact Hquiet|].
      now rewrite length_insert.
  - (* after SetEnd *)
    destruct t as [|k].
    + unfold main_step in Hstep. rewrite Hmain in Hstep.
      destruct (Nat.eq_dec joined ThreadCount) as [->|Hne].
      * rewrite main_tail_end in Hstep. inversion Hstep; subst; clear Hstep.
        unfold main_invariant.
        cbn [exit_status main_thread reader_threads objects].
        split; [reflexivity|]. split; [reflexivity|]. split; [|exact Hflag].
        apply list_eq. intros i.
        destruct (Nat.lt_ge_cases i ThreadCount) as [Hi|Hi].
        -- rewrite (Hdone i Hi). symmetry.
           now apply lookup_replicate_2.
        -- rewrite lookup_ge_None_2 by lia. symmetry.
           apply lookup_ge_None_2. rewrite length_replicate. lia.
      * rewrite main_tail_step in Hstep by lia.
        destruct (reader_threads s !! joined) as [[]|] eqn:Ejoined;
          try discriminate.
        inversion Hstep; subst; clear Hstep.
        unfold main_invariant. simpl. rewrite Hx. right.
        split; [exact Hflag|]. split; [exact Hlen|].
        exists (S joined). split; [lia|]. split; [reflexivity|].
        intros i Hi. destruct (Nat.eq_dec i joined) as [->|Hij];
          [exact Ejoined|apply Hdone; lia].
    + unfold reader_step in Hstep.
      destruct (reader_threads s !! k) as [pck|] eqn:Ek; [|discriminate].
      destruct (Retriever_step s3_client bucket_name pck (objects s))
        as [[[[pc' q'] text] ev']|] eqn:Es; [|discriminate].
      inversion Hstep; subst; clear Hstep.
      destruct (Retriever_step_queue _ _ _ _ _ _ Es) as (Hf & _).
      unfold main_invariant. simpl. rewrite Hx. right.
      split; [congruence|]. split; [now rewrite length_insert|].
      exists joined. split; [exact Hj|]. split; [exact Hmain|].
      intros i Hi. rewrite list_lookup_insert_ne; [now apply Hdone|].
      intros ->. rewrite (Hdone i Hi) in Ek. inversion Ek; subst pck.
      discriminate.
Qed.

(** Every run of a program of the shape of [main] keeps the invariant. *)
Lemma run_main_invariant (pre : list Action) (schedule : list Tid) :
  forallb is_quiet pre = true ->
  count_spawn pre = ThreadCount ->
  main_invariant
    (fst (run s3_client bucket_name schedule
            (initial (pre ++ ASetEnd :: main_tail 0)))).
Proof.
  intros Hquiet Hcount. unfold run.
  apply (turns_invariant (fun st => main_invariant (fst st))).
  - intros st t. apply turn_main_invariant.
  - unfold main_invariant. simpl. left. split; [reflexivity|].
    exists pre. split; [reflexivity|]. split; [exact Hquiet|exact Hcount].
Qed.

Lemma quiet_turn (a : Action) s tr rest :
  exit_status s = None ->
  main_thread s = a :: rest ->
  is_quiet a = true ->
  exists s' tr',
    turn s3_client bucket_name (s, tr) TMain = (s', tr')
    /\ exit_status s' = None /\ main_thread s' = rest.
Proof.
  intros Hx Hmain Ha. unfold turn, sys_step, main_step. simpl.
  rewrite Hx, Hmain.
  destruct a; simpl in Ha; try discriminate; simpl; eauto.
Qed.

Lemma SetEnd_turn s tr rest :
  exit_status s = None ->
  main_thread s = ASetEnd :: rest ->
  exists s' tr',
    turn s3_client bucket_name (s, tr) TMain = (s', tr')
    /\ exit_status s' = None /\ main_thread s' = rest
    /\ end_marker_ (objects s') = true.
Proof.
  intros Hx Hmain. unfold turn, sys_step, main_step. simpl.
  rewrite Hx, Hmain. simpl.
  eexists _, _. split; [reflexivity|]. simpl. auto.
Qed.

(** The main thread, moving alone, gets through its quiet actions. *)
Lemma main_solo (pre : list Action) :
  forall s tr rest,
    exit_status s = None ->
    main_thread s = pre ++ rest ->
    forallb is_quiet pre = true ->
    let st := fold_left (turn s3_client bucket_name)
                (replicate (length pre) TMain) (s, tr) in
    exit_status (fst st) = None /\ main_thread (fst st) = rest.
Proof.
  induction pre as [|a pre IH]; intros s tr rest Hx Hmain Hquiet; simpl.
  - auto.
  - simpl in Hquiet. apply andb_true_iff in Hquiet as [Ha Hquiet].
    destruct (quiet_turn a s tr (pre ++ rest) Hx Hmain Ha)
      as (s' & tr' & -> & Hx' & Hmain').
    now apply IH.
Qed.

Lemma turns_of_app (i : nat) (xs ys : list Tid) :
  turns_of i (xs ++ ys) = (turns_of i xs + turns_of i ys)%nat.
Proof.
  induction xs as [|[|j] xs IH]; simpl; auto.
  destruct (Nat.eqb i j); simpl; lia.
Qed.

Lemma turns_of_replicate (i k : nat) :
  turns_of i (replicate k (TReader i)) = k.
Proof.
  induction k as [|k IH]; simpl; auto. now rewrite Nat.eqb_refl, IH.
Qed.

Lemma turns_of_flat_map (i k : nat) (l : list nat) :
  In i l ->
  (k <= turns_of i (flat_map (fun j => replicate k (TReader j)) l))%nat.
Proof.
  induction l as [|j l IH]; simpl; intros H; [contradiction|].
  rewrite turns_of_app. destruct H as [->|H].
  - rewrite turns_of_replicate. lia.
  - specialize (IH H). lia.
Qed.

Lemma reader_turns_frame (schedule : list Tid) :
  Forall (fun t => exists j, t = TReader j) schedule ->
  forall st,
    main_thread (fst (fold_left (turn s3_client bucket_name) schedule st))
      = main_thread (fst st)
    /\ exit_status (fst (fold_left (turn s3_client bucket_name) schedule st))
       = exit_status (fst st).
Proof.
  induction 1 as [|t schedule (j & ->) _ IH]; intros st; simpl; [auto|].
  destruct (IH (turn s3_client bucket_name st (TReader j))) as (-> & ->).
  destruct (reader_turn_frame j st) as (-> & -> & _). auto.
Qed.

Lemma readers_in_turn_readers (n k : nat) :
  Forall (fun t => exists j, t = TReader j) (readers_in_turn n k).
Proof.
  apply Forall_forall. intros t Ht. unfold readers_in_turn in Ht.
  apply list_elem_of_In, in_flat_map in Ht as (j & _ & Ht).
  apply list_elem_of_In, elem_of_replicate in Ht as [-> _]. eauto.
Qed.

Lemma no_push_main_tail (joined : nat) : no_push (main_tail joined) = true.
Proof.
  unfold main_tail, no_push. rewrite forallb_app. simpl.
  rewrite andb_true_r. apply forallb_forall. intros a Ha.
  apply list_elem_of_In, list_elem_of_fmap in Ha as (j & -> & _). reflexivity.
Qed.

Lemma joins_before_exit_In (i : nat) (l : list nat) (rest : list Action) :
  In i l -> joins_before_exit i ((AJoin <$> l) ++ rest) = true.
Proof.
  induction l as [|j l IH]; intros H; [contradiction|].
  rewrite fmap_cons. cbn [app joins_before_exit].
  destruct H as [->|H].
  - now rewrite Nat.eqb_refl.
  - rewrite (IH H). apply orb_true_r.
Qed.

(** With every reader returned, the main thread gets through its joins and
    returns 0. *)
Lemma main_joins (n : nat) :
  forall (joined : nat) s tr,
    (joined + n = ThreadCount)%nat ->
    exit_status s = None ->
    main_thread s = main_tail joined ->
    (forall i : nat,
        (i < ThreadCount)%nat -> reader_threads s !! i = Some Done) ->
    exit_status
      (fst (fold_left (turn s3_client bucket_name)
              (replicate (S n) TMain) (s, tr))) = Some 0.
Proof.
  induction n as [|n IH]; intros joined s tr Hn Hx Hmain Hdone.
  - replace joined with ThreadCount in Hmain by lia.
    rewrite main_tail_end in Hmain.
    simpl. unfold turn, sys_step, main_step. simpl.
    now rewrite Hx, Hmain.
  - change (replicate (S (S n)) TMain)
      with (TMain :: replicate (S n) TMain).
    rewrite main_tail_step in Hmain by lia.
    cbn [fold_left]. unfold turn at 2. unfold sys_step, main_step.
    cbn [fst snd]. rewrite Hx, Hmain, (Hdone joined) by lia.
    apply (IH (S joined)); auto. lia.
Qed.

(** A program of the shape of [main] can always run to its end: there is a
    schedule after which it has exited. *)
Lemma main_can_finish (pre : list Action) :
  forallb is_quiet pre = true ->
  count_spawn pre = ThreadCount ->
  exists schedule,
    exit_status
      (fst (run s3_client bucket_name schedule
              (initial (pre ++ ASetEnd :: main_tail 0)))) = Some 0.
Proof.
  intros Hquiet Hcount.
  set (program := pre ++ ASetEnd :: main_tail 0).
  set (phase1 := replicate (length pre) TMain ++ [TMain]).
  set (st1 := fold_left (turn s3_client bucket_name) phase1
                (initial program, [])).
  set (bound := (2 * length (keylist_ (objects (fst st1))) + 3)%nat).
  set (phase2 := readers_in_turn ThreadCount bound).
  exists (phase1 ++ phase2 ++ replicate (S ThreadCount) TMain).
  unfold run. rewrite !fold_left_app. fold st1.
  (* phase 1: up to and including SetEnd *)
  assert (H1 : exit_status (fst st1) = None
               /\ main_thread (fst st1) = main_tail 0
               /\ end_marker_ (objects (fst st1)) = true).
  { unfold st1, phase1. rewrite fold_left_app.
    destruct (main_solo pre (initial program) [] (ASetEnd :: main_tail 0))
      as (Hx & Hm); [reflexivity|reflexivity|exact Hquiet|].
    destruct (fold_left _ (replicate _ _) _) as [s0 tr0].
    destruct (SetEnd_turn s0 tr0 _ Hx Hm) as (s' & tr' & E & H1).
    cbn [fold_left]. rewrite E. exact H1. }
  destruct H1 as (Hx1 & Hm1 & Hf1).
  assert (Hinv1 : main_invariant (fst st1)).
  { apply (run_main_invariant pre phase1 Hquiet Hcount). }
  unfold main_invariant in Hinv1. rewrite Hx1 in Hinv1.
  destruct Hinv1 as [(Hf & _)|(_ & Hlen1 & _)]; [congruence|].
  (* phase 2: every reader runs until it returns *)
  set (st2 := fold_left (turn s3_client bucket_name) phase2 st1).
  destruct (reader_turns_frame phase2 (readers_in_turn_readers _ _) st1)
    as (Hm2 & Hx2). fold st2 in Hm2, Hx2.
  assert (Hdone2 : forall i : nat,
             (i < ThreadCount)%nat ->
             reader_threads (fst st2) !! i = Some Done).
  { intros i Hi.
    destruct (lookup_lt_is_Some_2 (reader_threads (fst st1)) i) as (pc & Hpc);
      [lia|].
    unfold st2. rewrite (surjective_pairing st1).
    apply (reader_returns i phase2 (fst st1) (snd st1) pc Hpc).
    - right. repeat split; auto.
      + rewrite Hm1. apply no_push_main_tail.
      + rewrite Hm1. apply joins_before_exit_In, in_seq. lia.
    - transitivity bound.
      + unfold bound. destruct pc; simpl; lia.
      + apply turns_of_flat_map, in_seq. lia. }
  (* phase 3: the joins and the return *)
  rewrite (surjective_pairing st2).
  apply (main_joins ThreadCount 0); auto; congruence.
Qed.

(** In a run of a program of the shape of [main], from any point where the
    flag is set, every reader returns within [2 * pending + 3] further turns
    of its own, whatever the other threads do meanwhile. *)
Lemma readers_return_after_SetEnd (pre : list Action)
    (before after : list Tid) (i : nat) :
  forallb is_quiet pre = true ->
  count_spawn pre = ThreadCount ->
  let program := pre ++ ASetEnd :: main_tail 0 in
  let s1 := fst (run s3_client bucket_name before (initial program)) in
  end_marker_ (objects s1) = true ->
  (i < ThreadCount)%nat ->
  (2 * length (keylist_ (objects s1)) + 3 <= turns_of i after)%nat ->
  reader_threads
    (fst (run s3_client bucket_name (before ++ after) (initial program)))
    !! i = Some Done.
Proof.
  intros Hquiet Hcount program s1 Hflag Hi Hturns.
  pose proof (run_main_invariant pre before Hquiet Hcount) as Hinv.
  fold program in Hinv. fold s1 in Hinv.
  unfold run. rewrite fold_left_app.
  change (fold_left (turn s3_client bucket_name) before (initial program, []))
    with (run s3_client bucket_name before (initial program)).
  rewrite (surjective_pairing (run s3_client bucket_name before _)).
  fold s1. unfold main_invariant in Hinv.
  destruct (exit_status s1) as [c|] eqn:Hx.
  - destruct Hinv as (_ & _ & Hall & _).
    apply (reader_returns i after s1 _ Done).
    + rewrite Hall. now apply lookup_replicate_2.
    + now left.
    + simpl. lia.
  - destruct Hinv as [(Hf & _)|(_ & Hlen & joined & Hj & Hmain & Hdone)];
      [congruence|].
    destruct (lookup_lt_is_Some_2 (reader_threads s1) i) as (pc & Hpc);
      [lia|].
    apply (reader_returns i after s1 _ pc Hpc).
    + destruct (Nat.lt_ge_cases i joined) as [Hlt|Hge].
      * left. rewrite (Hdone i Hlt) in Hpc. now inversion Hpc.
      * right. repeat split; auto.
        -- rewrite Hmain. apply no_push_main_tail.
        -- rewrite Hmain. apply joins_before_exit_In, in_seq. lia.
    + etransitivity; [|exact Hturns]. destruct pc; simpl; lia.
Qed.

End Readers.

(** * The enumeration *)

Lemma list_loop_more_fuel (s3_client : S3Client) (fuel extra : nat) :
  forall request acts,
    list_loop s3_client fuel request = Some acts ->
    list_loop s3_client (fuel + extra) request = Some acts.
Proof.
  induction fuel as [|fuel IH]; intros request acts H; simpl in *.
  - discriminate.
  - assert (Hpage : forall page,
               list_page s3_client fuel request = Some page ->
               list_page s3_client (fuel + extra) request = Some page).
    { unfold list_page. intros page.
      destruct (ListIsSuccess _); [|auto].
      destruct (enumerate_objects fuel _) as [pushes|] eqn:E; [|discriminate].
      now rewrite (enumerate_objects_more_fuel _ extra _ _ E). }
    destruct (list_page s3_client fuel request) as [page|]; [|discriminate].
    rewrite (Hpage page eq_refl).
    destruct (GetIsTruncated _); [|exact H].
    destruct (list_loop s3_client fuel _) as [rest|] eqn:E; [|discriminate].
    now rewrite (IH _ _ E).
Qed.

(** The listing loop does listing calls, pushes and error lines only. *)
Lemma enumerate_objects_quiet (fuel : nat) (os : list S3Object) :
  forall acts,
    enumerate_objects fuel os = Some acts ->
    forallb is_quiet acts = true /\ count_spawn acts = O.
Proof.
  induction os as [|o os IH]; intros acts H; simpl in H.
  - inversion H. auto.
  - destruct (enumerate_object fuel o) as [a|] eqn:Ea; [|discriminate].
    destruct (enumerate_objects fuel os) as [b|] eqn:Eb; [|discriminate].
    inversion H; subst acts; clear H.
    destruct (IH b eq_refl) as (Hq & Hc).
    unfold enumerate_object in Ea.
    destruct (chunk_loop fuel _ _ _) as [rs|]; [|discriminate].
    inversion Ea; subst a; clear Ea.
    induction rs as [|r rs IHrs]; simpl; auto.
Qed.

Lemma quiet_app (xs ys : list Action) :
  forallb is_quiet xs = true /\ count_spawn xs = O ->
  forallb is_quiet ys = true /\ count_spawn ys = O ->
  forallb is_quiet (xs ++ ys) = true /\ count_spawn (xs ++ ys) = O.
Proof.
  intros (Hx & Cx) Hy. induction xs as [|a xs IH]; simpl in *; [exact Hy|].
  apply andb_true_iff in Hx as [Ha Hx].
  destruct a; simpl in *; try discriminate; rewrite ?Ha; auto.
Qed.

Lemma list_loop_quiet (s3_client : S3Client) (fuel : nat) :
  forall request acts,
    list_loop s3_client fuel request = Some acts ->
    forallb is_quiet acts = true /\ count_spawn acts = O.
Proof.
  induction fuel as [|fuel IH]; intros request acts H; simpl in H.
  - discriminate.
  - destruct (list_page s3_client fuel request) as [page|] eqn:Ep;
      [|discriminate].
    assert (Hpage : forallb is_quiet page = true /\ count_spawn page = O).
    { unfold list_page in Ep. destruct (ListIsSuccess _).
      - destruct (enumerate_objects fuel _) as [pushes|] eqn:E;
          [|discriminate].
        inversion Ep. now apply enumerate_objects_quiet in E.
      - inversion Ep. auto. }
    destruct (GetIsTruncated _).
    + destruct (list_loop s3_client fuel _) as [rest|] eqn:E; [|discriminate].
      inversion H. apply quiet_app; [exact Hpage|]. exact (IH _ _ E).
    + inversion H; subst. exact Hpage.
Qed.

Lemma count_spawn_app (xs ys : list Action) :
  count_spawn (xs ++ ys) = (count_spawn xs + count_spawn ys)%nat.
Proof. induction xs as [|[] xs IH]; simpl; auto. Qed.

(** With both arguments given, [main] is the banner, the thread starts and
    the listing, then [SetEnd], the joins and the return. *)
Lemma main_shape (connect : string -> S3Client) (argv : list string)
    (fuel : nat) (program : list Action) :
  (3 <= length argv)%nat ->
  main connect fuel argv = Some program ->
  exists listing,
    list_loop (connect (nth 1 argv ""%string)) fuel
      (WithBucket (nth 2 argv ""%string)) = Some listing
    /\ let pre :=
         [APrint (banner (nth 2 argv ""%string) (nth 1 argv ""%string))]
           ++ replicate ThreadCount ASpawn ++ listing in
       program = pre ++ ASetEnd :: main_tail 0
       /\ forallb is_quiet pre = true
       /\ count_spawn pre = ThreadCount.
Proof.
  intros Hargs Hmain. unfold main in Hmain.
  destruct (Z.ltb_spec (Z.of_nat (length argv)) 3) as [Hlt|_]; [lia|].
  destruct (list_loop _ fuel _) as [listing|] eqn:El; [|discriminate].
  destruct (list_loop_quiet _ _ _ _ El) as (Hq & Hc).
  exists listing. split; [reflexivity|]. intros pre. split; [|split].
  - injection Hmain as <-. unfold pre, main_tail.
    rewrite Nat.sub_0_r, <- !app_assoc. reflexivity.
  - unfold pre. rewrite !forallb_app, Hq. reflexivity.
  - unfold pre. rewrite !count_spawn_app, Hc. reflexivity.
Qed.

(** C2, as the code has it. A failed listing page is logged, with the line
    ["ListObjects error: <name> <message>"], and pushes nothing. The token
    of the request is then set from the result held by the failed outcome,
    and the loop goes round again exactly when that result is flagged
    truncated; for an outcome made from the error alone, whose result is
    empty, the loop ends with the failed page. Whatever failed, the actions
    of the loop, error lines included, come in [main] after the banner and
    the thread starts and before [SetEnd], which is followed by the joins
    and the return only; and once the flag is set every reader returns
    within [2 * pending + 3] turns of its own. *)
Theorem listing_failure_handling (s3_client : S3Client)
    (objects_request : ListObjectsV2Request) :
  let outcome := ListObjectsV2 s3_client objects_request in
  let line :=
    ("ListObjects error: " ++ GetExceptionName (ListGetError outcome) ++ " "
       ++ GetMessage (ListGetError outcome) ++ String "010" "")%string in
  let page := [AList objects_request; APrint line] in
  ListIsSuccess outcome = false ->
  (forall fuel, list_page s3_client fuel objects_request = Some page)
  /\ (forall fuel,
        list_loop s3_client (S fuel) objects_request
        = if GetIsTruncated (ListGetResult outcome) then
            match list_loop s3_client fuel
                    (WithContinuationToken
                       (GetNextContinuationToken (ListGetResult outcome))
                       objects_request) with
            | Some rest => Some (page ++ rest)
            | None => None
            end
          else Some page)
  /\ (forall e fuel,
        outcome = ListOutcome_of_error e ->
        list_loop s3_client (S fuel) objects_request
        = Some [AList objects_request;
                APrint ("ListObjects error: " ++ GetExceptionName e ++ " "
                          ++ GetMessage e ++ String "010" "")%string])
  /\ (forall (connect : string -> S3Client) argv fuel program,
        (3 <= length argv)%nat ->
        main connect fuel argv = Some program ->
        exists listing,
          list_loop (connect (nth 1 argv ""%string)) fuel
            (WithBucket (nth 2 argv ""%string)) = Some listing
          /\ program
             = [APrint ("Reading S3 bucket: " ++ nth 2 argv "" ++ " from "
                          ++ nth 1 argv "" ++ String "010" "")%string]
                 ++ replicate ThreadCount ASpawn
                 ++ listing
                 ++ [ASetEnd]
                 ++ (AJoin <$> seq 0 ThreadCount)
                 ++ [AExit 0]
          /\ ~ In ASetEnd listing
          /\ (forall i status,
                ~ In (AJoin i) listing /\ ~ In (AExit status) listing)
          /\ forallb is_quiet
               ([APrint ("Reading S3 bucket: " ++ nth 2 argv "" ++ " from "
                           ++ nth 1 argv "" ++ String "010" "")%string]
                  ++ replicate ThreadCount ASpawn ++ listing) = true
          /\ forall client bucket_name before after (i : nat),
               let s1 := fst (run client bucket_name before
                                (initial program)) in
               end_marker_ (objects s1) = true ->
               (i < ThreadCount)%nat ->
               (2 * length (keylist_ (objects s1)) + 3
                <= turns_of i after)%nat ->
               reader_threads
                 (fst (run client bucket_name (before ++ after)
                         (initial program))) !! i = Some Done).
Proof.
  intros outcome line page Hfail.
  assert (Hpage : forall fuel,
             list_page s3_client fuel objects_request = Some page).
  { intros fuel. unfold list_page. fold outcome. now rewrite Hfail. }
  split; [exact Hpage|].
  assert (Hloop : forall fuel,
             list_loop s3_client (S fuel) objects_request
             = if GetIsTruncated (ListGetResult outcome) then
                 match list_loop s3_client fuel
                         (WithContinuationToken
                            (GetNextContinuationToken (ListGetResult outcome))
                            objects_request) with
                 | Some rest => Some (page ++ rest)
                 | None => None
                 end
               else Some page).
  { intros fuel. cbn [list_loop]. rewrite Hpage. reflexivity. }
  split; [exact Hloop|].
  split.
  { intros e fuel He. rewrite Hloop. unfold page, line. rewrite He.
    reflexivity. }
  intros connect argv fuel program Hargs Hmain.
  destruct (main_shape connect argv fuel program Hargs Hmain)
    as (listing & El & Hprog & Hpq & Hpc).
  exists listing. split; [exact El|].
  assert (Hshape : program
                   = [APrint ("Reading S3 bucket: " ++ nth 2 argv ""
                                ++ " from " ++ nth 1 argv ""
                                ++ String "010" "")%string]
                       ++ replicate ThreadCount ASpawn
                       ++ listing
                       ++ [ASetEnd]
                       ++ (AJoin <$> seq 0 ThreadCount)
                       ++ [AExit 0]).
  { rewrite Hprog, <- !app_assoc. reflexivity. }
  split; [exact Hshape|].
  destruct (list_loop_quiet _ _ _ _ El) as (Hq & _).
  assert (Hquiet : forall a, In a listing -> is_quiet a = true).
  { intros a Ha. rewrite forallb_forall in Hq. now apply Hq. }
  split; [intros Hin; now apply Hquiet in Hin|].
  split.
  { intros i status. split; intros Hin; now apply Hquiet in Hin. }
  split; [exact Hpq|].
  intros client bucket_name before after i s1 Hflag Hi Hturns.
  subst s1. rewrite Hprog in *. now apply readers_return_after_SetEnd.
Qed.

Lemma listing_failure_handling_witness :
  list_loop flaky_client 1
    (WithContinuationToken "page2" (WithBucket "bucket"))
  = Some [AList (WithContinuationToken "page2" (WithBucket "bucket"));
          APrint ("ListObjects error: SlowDown Please reduce your request rate."
                    ++ String "010" "")%string].
Proof.
  destruct (listing_failure_handling flaky_client
              (WithContinuationToken "page2" (WithBucket "bucket")) eq_refl)
    as (_ & _ & H & _).
  apply (H slow_down 0%nat). reflexivity.
Defined.

(** C2, as the claim has it, fails: after the failed fetch of the second
    page the loop is over. Whenever the loop returns, the listing call that
    failed is its last one; the request carrying the token left by the
    failed outcome is never made, and the object it would have listed is
    never pushed. *)
Lemma listing_failure_stops_counterexample :
  let failed := WithContinuationToken "page2" (WithBucket "bucket") in
  let next :=
    WithContinuationToken
      (GetNextContinuationToken
         (ListGetResult (ListObjectsV2 flaky_client failed))) failed in
  let log :=
    [AList (WithBucket "bucket");
     APush "a" "bytes=0-10";
     APush "b" "bytes=0-20";
     AList failed;
     APrint ("ListObjects error: SlowDown Please reduce your request rate."
               ++ String "010" "")%string] in
  ListIsSuccess (ListObjectsV2 flaky_client failed) = false
  /\ list_loop flaky_client 3 (WithBucket "bucket") = Some log
  /\ forall fuel acts,
       list_loop flaky_client fuel (WithBucket "bucket") = Some acts ->
       acts = log
       /\ ~ In (AList next) acts /\ ~ In (APush "c" "bytes=0-30") acts.
Proof.
  intros failed next log. split; [reflexivity|]. split; [reflexivity|].
  intros fuel acts H.
  assert (E : acts = log).
  { destruct fuel as [|[|[|fuel]]]; try (vm_compute in H; discriminate).
    change (S (S (S fuel))) with (3 + fuel)%nat in H.
    rewrite (list_loop_more_fuel flaky_client 3 fuel (WithBucket "bucket")
               _ eq_refl) in H.
    now inversion H. }
  subst acts. split; [reflexivity|].
  split; intros Hin; simpl in Hin;
    repeat (destruct Hin as [Hin|Hin]; [discriminate|]); exact Hin.
Qed.

(** * The exit status *)

Lemma usage_run (argv0 : string) (s3_client : S3Client)
    (bucket_name : string) (schedule : list Tid) :
  usage_states argv0
    (fst (run s3_client bucket_name schedule
            (initial [APrint (usage argv0); AExit 1]))).
Proof.
  unfold run.
  apply (turns_invariant s3_client bucket_name
           (fun st => usage_states argv0 (fst st))).
  - intros [s tr] t H. simpl in H.
    destruct H as [->|[->| ->]]; destruct t as [|j];
      unfold usage_states; cbn; auto.
  - now left.
Qed.

(** Whatever the program, the actions the main thread has done, in order,
    followed by those it has still to do, are the program. *)
Lemma run_main_progress (s3_client : S3Client) (bucket_name : string)
    (program : list Action) (schedule : list Tid) :
  let final := run s3_client bucket_name schedule (initial program) in
  main_actions_in (snd <$> snd final) ++ main_thread (fst final) = program.
Proof.
  unfold run.
  apply (turns_invariant s3_client bucket_name
           (fun st => main_actions_in (snd <$> snd st)
                        ++ main_thread (fst st) = program));
    [|reflexivity].
  intros [s tr] t H. unfold turn. simpl in *.
  destruct (sys_step s3_client bucket_name t s) as [[s' ev]|] eqn:Hstep;
    [simpl|exact H].
  assert (Happ : forall xs ys,
             main_actions_in (xs ++ ys)
             = main_actions_in xs ++ main_actions_in ys).
  { induction xs as [|[] xs IH]; intros ys; simpl; auto. now rewrite IH. }
  rewrite fmap_app, Happ. simpl.
  unfold sys_step in Hstep. destruct (exit_status s); [discriminate|].
  destruct t as [|j].
  - unfold main_step in Hstep.
    destruct (main_thread s) as [|a rest] eqn:Hm; [discriminate|].
    destruct a as [text| |request|key range| |k|status];
      try (injection Hstep as <- <-; simpl; rewrite <- app_assoc; exact H).
    destruct (reader_threads s !! k) as [[]|]; try discriminate.
    injection Hstep as <- <-. simpl. rewrite <- app_assoc. exact H.
  - unfold reader_step in Hstep.
    destruct (reader_threads s !! j) as [pcj|]; [|discriminate].
    destruct pcj; simpl in Hstep.
    + destruct (Pop (objects s)) as [[kr|] q1]; injection Hstep as <- <-;
        simpl; now rewrite app_nil_r.
    + injection Hstep as <- <-. simpl. now rewrite app_nil_r.
    + destruct (end_marker_ (objects s)); injection Hstep as <- <-; simpl;
        now rewrite app_nil_r.
    + injection Hstep as <- <-. simpl. now rewrite app_nil_r.
    + discriminate.
Qed.

(** C8. Started with the program name and fewer than two arguments, [main]
    writes the usage message (an empty line, ["To run this example, supply
    the name of a bucket to list!"], ["Ex: <program> <endpoint>
    <bucket-name>"], an empty line) and ends the process with status 1,
    before any thread is started. With both arguments, [main] is the banner,
    the [ThreadCount] thread starts, the listing loop, [SetEnd], the joins
    and the return, and it returns exactly when the listing loop does; then
    in every run of the program, under every schedule and whatever the
    listing and GET calls answer, the process ends only with status 0, after
    the main thread has done all of that in order, with the flag set and
    all [ThreadCount] readers returned; and it can always end: some schedule
    takes it to status 0. *)
Theorem main_exit_status (connect : string -> S3Client) (argv : list string)
    (fuel : nat) :
  ((1 <= length argv < 3)%nat ->
   let text :=
     (String "010" ""
        ++ "To run this example, supply the name of a bucket to list!"
        ++ String "010" ""
        ++ "Ex: " ++ nth 0 argv "" ++ " <endpoint> <bucket-name>"
        ++ String "010" "" ++ String "010" "")%string in
   let program := [APrint text; AExit 1] in
   main connect fuel argv = Some program
   /\ (forall s3_client bucket_name schedule c,
         let final := run s3_client bucket_name schedule
                        (initial program) in
         exit_status (fst final) = Some c ->
         c = 1 /\ c <> 0
         /\ cout (fst final) = text
         /\ main_actions_in (snd <$> snd final) = program
         /\ reader_threads (fst final) = [])
   /\ (forall s3_client bucket_name,
         exit_status (fst (run s3_client bucket_name [TMain; TMain]
                             (initial program))) = Some 1))
  /\ ((3 <= length argv)%nat ->
      let s3_client := connect (nth 1 argv ""%string) in
      let bucket_name := nth 2 argv ""%string in
      (main connect fuel argv = None
       <-> list_loop s3_client fuel (WithBucket bucket_name) = None)
      /\ forall program,
           main connect fuel argv = Some program ->
           (exists listing,
               list_loop s3_client fuel (WithBucket bucket_name)
                 = Some listing
               /\ program
                  = [APrint ("Reading S3 bucket: " ++ bucket_name ++ " from "
                               ++ nth 1 argv "" ++ String "010" "")%string]
                      ++ replicate ThreadCount ASpawn
                      ++ listing
                      ++ [ASetEnd]
                      ++ (AJoin <$> seq 0 ThreadCount)
                      ++ [AExit 0]
               /\ forall status, ~ In (AExit status) listing)
           /\ (forall schedule c,
                 let final := run s3_client bucket_name schedule
                                (initial program) in
                 exit_status (fst final) = Some c ->
                 c = 0 /\ main_thread (fst final) = []
                 /\ main_actions_in (snd <$> snd final) = program
                 /\ reader_threads (fst final) = replicate ThreadCount Done
                 /\ end_marker_ (objects (fst final)) = true)
           /\ (exists schedule,
                  exit_status (fst (run s3_client bucket_name schedule
                                      (initial program))) = Some 0)).
Proof.
  split.
  - intros Hargs text program.
    change text with (usage (nth 0 argv ""%string)) in *.
    split; [|split].
    + unfold main.
      destruct (Z.ltb_spec (Z.of_nat (length argv)) 3) as [_|Hge];
        [reflexivity|lia].
    + intros s3_client bucket_name schedule c final Hc.
      pose proof (usage_run (nth 0 argv ""%string) s3_client bucket_name
                    schedule) as Hst.
      pose proof (run_main_progress s3_client bucket_name program schedule)
        as Hprog.
      cbv zeta in Hprog. fold program in Hst. fold final in Hst, Hprog.
      destruct Hst as [E|[E|E]]; rewrite E in *; simpl in Hc;
        try discriminate.
      inversion Hc; subst c. simpl in Hprog. rewrite app_nil_r in Hprog.
      simpl. repeat split; auto.
    + intros s3_client bucket_name. reflexivity.
  - intros Hargs s3_client bucket_name. split.
    + unfold main.
      destruct (Z.ltb_spec (Z.of_nat (length argv)) 3) as [Hlt|_]; [lia|].
      fold s3_client bucket_name.
      destruct (list_loop s3_client fuel (WithBucket bucket_name));
        split; intros H; (discriminate || reflexivity).
    + intros program Hmain.
      destruct (main_shape connect argv fuel program Hargs Hmain)
        as (listing & El & Hprog & Hpq & Hpc).
      fold s3_client bucket_name in El, Hprog, Hpq, Hpc.
      split.
      { exists listing. split; [exact El|]. split.
        - rewrite Hprog, <- !app_assoc. reflexivity.
        - intros status Hin.
          destruct (list_loop_quiet _ _ _ _ El) as (Hq & _).
          rewrite forallb_forall in Hq. now apply Hq in Hin. }
      split.
      * intros schedule c final Hc.
        pose proof (run_main_progress s3_client bucket_name program schedule)
          as Hdone.
        cbv zeta in Hdone. fold final in Hdone.
        pose proof (run_main_invariant s3_client bucket_name _ schedule
                      Hpq Hpc) as Hinv.
        rewrite <- Hprog in Hinv. fold final in Hinv.
        unfold main_invariant in Hinv. rewrite Hc in Hinv.
        destruct Hinv as (H0 & Hmt & Hr & Hf).
        rewrite Hmt, app_nil_r in Hdone. auto.
      * rewrite Hprog. now apply main_can_finish.
Qed.

Lemma main_exit_status_witness :
  main (fun _ => flaky_client) 3 ["readbucket_mt"%string]
  = Some [APrint
            (String "010" ""
               ++ "To run this example, supply the name of a bucket to list!"
               ++ String "010" ""
               ++ "Ex: readbucket_mt <endpoint> <bucket-name>"
               ++ String "010" "" ++ String "010" "")%string;
          AExit 1]
  /\ exists program,
       main (fun _ => flaky_client) 3
         ["readbucket_mt"; "10.0.0.1"; "bucket"]%string = Some program
       /\ program
          = [APrint ("Reading S3 bucket: bucket from 10.0.0.1"
                       ++ String "010" "")%string]
              ++ replicate 32 ASpawn
              ++ [AList (WithBucket "bucket");
                  APush "a" "bytes=0-10";
                  APush "b" "bytes=0-20";
                  AList (WithContinuationToken "page2" (WithBucket "bucket"));
                  APrint
                    ("ListObjects error: SlowDown Please reduce your request rate."
                       ++ String "010" "")%string]
              ++ [ASetEnd]
              ++ (AJoin <$> seq 0 32)
              ++ [AExit 0]
       /\ exists schedule,
            exit_status (fst (run flaky_client "bucket" schedule
                                (initial program))) = Some 0.
Proof.
  split.
  - destruct (main_exit_status (fun _ => flaky_client)
                ["readbucket_mt"%string] 3) as (H & _).
    apply H. simpl. lia.
  - destruct (main_exit_status (fun _ => flaky_client)
                ["readbucket_mt"; "10.0.0.1"; "bucket"]%string 3)
      as (_ & H).
    destruct H as (_ & H); [simpl; lia|].
    eexists. split; [vm_compute; reflexivity|].
    split; [vm_compute; reflexivity|].
    apply H. vm_compute. reflexivity.
Defined.

Lemma Retriever_exit_condition_witness :
  let final := run flaky_client "bucket"
                 [TMain; TMain; TReader 0; TReader 0]
                 (initial [ASpawn; ASetEnd]) in
  reader_threads (fst final) !! 0%nat = Some Done
  /\ exists before,
       events_of 0 (snd final) = before ++ [EvPop None; EvIsEnd true].
Proof.
  intros final. split; [reflexivity|].
  destruct (Retriever_exit_condition flaky_client "bucket")
    as (_ & _ & _ & _ & _ & _ & _ & _ & H).
  apply (H [ASpawn; ASetEnd] [TMain; TMain; TReader 0; TReader 0] 0%nat).
  reflexivity.
Defined.

Lemma retrieval_failure_handling_witness :
  RetrieveObjectRange flaky_client "bucket" "b" "bytes=0-20"
  = ("GetObject error: NoSuchKey The specified key does not exist."
       ++ endl)%string
  /\ Retriever_step flaky_client "bucket"
       (Retrieving ("b", "bytes=0-20")%string) (SetEnd ObjectList_new)
     = Some (Draining, SetEnd ObjectList_new,
             ("GetObject error: NoSuchKey The specified key does not exist."
                ++ endl)%string,
             EvRetrieve ("b", "bytes=0-20")%string).
Proof.
  destruct (retrieval_failure_handling flaky_client "bucket"
              ("b", "bytes=0-20")%string eq_refl) as (H1 & H2 & _).
  split; [exact H1|exact (H2 (SetEnd ObjectList_new))].
Defined.

(** * More on the chunking loop *)

(** The loop wherever its additions do not wrap: it returns, and its ranges
    run from the offset to the object size in steps of the chunk size. *)
Lemma chunk_loop_run (c s : Z) :
  0 < c -> 0 <= s ->
  (forall o, 0 <= o < s -> o = 0 \/ c <= o -> o + c < 2 ^ 64) ->
  forall (fuel : nat) (offset : Z),
    0 <= offset -> offset = 0 \/ c <= offset ->
    Z.max 0 (s - offset) + c <= Z.of_nat fuel * c ->
    exists rs,
      chunk_loop fuel c s offset = Some rs
      /\ chained c (Z.min s offset) rs s
      /\ Z.of_nat (length rs) = (Z.max 0 (s - offset) + c - 1) / c.
Proof.
  intros Hc Hs Hnowrap. induction fuel as [|fuel IH];
    intros offset H0 Hinv Hfuel.
  - simpl in Hfuel. lia.
  - rewrite Nat2Z.inj_succ in Hfuel.
    replace (Z.succ (Z.of_nat fuel) * c) with (Z.of_nat fuel * c + c)
      in Hfuel by ring.
    simpl. destruct (Z.ltb_spec offset s) as [Hlt|Hge].
    + assert (Hw : wrap64 (offset + c) = offset + c).
      { apply wrap64_small. specialize (Hnowrap offset). lia. }
      rewrite Hw.
      assert (Hpos : 1 <= Z.of_nat fuel).
      { destruct (Z.of_nat fuel) eqn:F; lia. }
      assert (Hone : c <= Z.of_nat fuel * c) by nia.
      destruct (IH (offset + c)) as (rest & E & Hch & Hlen); [lia|lia|lia|].
      rewrite E. eexists. split; [reflexivity|]. split.
      * simpl. split; [lia|]. split; [lia|]. split; [lia|]. exact Hch.
      * rewrite length_cons, Nat2Z.inj_succ, Hlen.
        destruct (Z_lt_le_dec (s - (offset + c)) 0) as [Hneg|Hnn].
        -- (* the last chunk *)
           replace (Z.max 0 (s - (offset + c)) + c - 1) with (c - 1) by lia.
           replace (Z.max 0 (s - offset) + c - 1)
             with (s - offset - 1 + 1 * c) by lia.
           rewrite Z.div_add by lia.
           rewrite !Z.div_small by lia. reflexivity.
        -- replace (Z.max 0 (s - offset) + c - 1)
             with (Z.max 0 (s - (offset + c)) + c - 1 + 1 * c) by lia.
           rewrite Z.div_add by lia. lia.
    + exists []. split; [reflexivity|]. split; [simpl; lia|].
      simpl. replace (Z.max 0 (s - offset)) with 0 by lia.
      symmetry. apply Z.div_small. lia.
Qed.

Lemma ReadChunkSize_nowrap (s : Z) :
  0 <= s < 2 ^ 63 ->
  forall o, 0 <= o < s -> o = 0 \/ ReadChunkSize <= o ->
            o + ReadChunkSize < 2 ^ 64.
Proof. rewrite ReadChunkSize_value. intros Hs o Ho _. lia. Qed.

(** X1. An object of [size] bytes, [0 <= size < 2^63], is given exactly
    [ceil (size / ReadChunkSize)] tasks, all under its own key; an empty
    object is given none. *)
Theorem enumerate_object_task_count (s3_object : S3Object) (fuel : nat) :
  0 <= GetSize s3_object < 2 ^ 63 ->
  (Z.to_nat (GetSize s3_object / ReadChunkSize) + 2 <= fuel)%nat ->
  exists pushes,
    enumerate_object fuel s3_object = Some pushes
    /\ Z.of_nat (length pushes)
       = (GetSize s3_object + ReadChunkSize - 1) / ReadChunkSize
    /\ (GetSize s3_object = 0 <-> pushes = [])
    /\ Forall (fun a => exists range, a = APush (GetKey s3_object) range)
         pushes.
Proof.
  intros Hs Hfuel. unfold enumerate_object.
  assert (Hc : 0 < ReadChunkSize) by (rewrite ReadChunkSize_value; lia).
  rewrite wrap64_small by (change (2 ^ 64) with (2 * 2 ^ 63); lia).
  destruct (chunk_loop_run ReadChunkSize (GetSize s3_object) Hc (proj1 Hs)
              (ReadChunkSize_nowrap _ Hs) fuel 0)
    as (rs & E & Hch & Hlen);
    [lia|now left|apply chunk_fuel_enough; lia|].
  rewrite E. eexists. split; [reflexivity|].
  rewrite length_fmap, Hlen.
  replace (Z.max 0 (GetSize s3_object - 0)) with (GetSize s3_object) by lia.
  split; [reflexivity|]. split.
  - split.
    + intros H0. replace (Z.min (GetSize s3_object) 0) with 0 in Hch by lia.
      destruct rs as [|[l u] rs]; [reflexivity|].
      simpl in Hch. destruct Hch as (-> & Hlt & _ & Hch).
      apply chained_le in Hch. lia.
    + intros Hnil. destruct rs; [|discriminate].
      simpl in Hch. lia.
  - apply Forall_fmap, Forall_forall. intros r _. simpl. eauto.
Qed.

Lemma enumerate_object_task_count_witness :
  exists pushes,
    enumerate_object 4 {| GetKey := "k"; GetSize := 2 ^ 33 + 1 |} = Some pushes
    /\ Z.of_nat (length pushes) = 3.
Proof.
  destruct (enumerate_object_task_count
              {| GetKey := "k"; GetSize := 2 ^ 33 + 1 |} 4)
    as (pushes & E & Hlen & _); [simpl; lia|vm_compute; lia|].
  exists pushes. split; [exact E|]. rewrite Hlen. reflexivity.
Defined.

(** With an object size the loop condition never fails on, the loop does not
    return: the offset, a multiple of the chunk size below [2^64], stays
    below the size and wraps round to 0. *)
Lemma chunk_loop_wraps_forever (s : Z) :
  2 ^ 64 - 2 ^ 32 < s ->
  forall (fuel : nat) (q : Z),
    0 <= q < 2 ^ 32 ->
    chunk_loop fuel ReadChunkSize s (q * 2 ^ 32) = None.
Proof.
  intros Hs. rewrite ReadChunkSize_value.
  induction fuel as [|fuel IH]; intros q Hq; simpl; [reflexivity|].
  destruct (Z.ltb_spec (q * 2 ^ 32) s) as [_|Hge]; [|lia].
  destruct (Z.eq_dec q (2 ^ 32 - 1)) as [->|Hne].
  - change (wrap64 ((2 ^ 32 - 1) * 2 ^ 32 + 4294967296)) with (0 * 2 ^ 32).
    rewrite IH by lia. reflexivity.
  - replace (wrap64 (q * 2 ^ 32 + 4294967296)) with ((q + 1) * 2 ^ 32).
    + rewrite IH by lia. reflexivity.
    + rewrite wrap64_small by lia. lia.
Qed.

(** X2. [GetSize] is a [long long] and is cast to [unsigned long long]. For
    a size in [-2^63, 2^63) the chunking loop of an object returns (with
    enough fuel) unless [-2^32 < size < 0]; for those sizes it never
    returns, and neither does the listing loop once a page that lists such
    an object has been fetched. *)
Theorem enumerate_object_returns_iff (s3_object : S3Object) :
  - 2 ^ 63 <= GetSize s3_object < 2 ^ 63 ->
  ((exists fuel pushes, enumerate_object fuel s3_object = Some pushes)
   <-> ~ (- 2 ^ 32 < GetSize s3_object < 0))
  /\ (- 2 ^ 32 < GetSize s3_object < 0 ->
      forall fuel,
        enumerate_object fuel s3_object = None
        /\ forall s3_client objects_request,
             ListIsSuccess (ListObjectsV2 s3_client objects_request) = true ->
             In s3_object
               (GetContents
                  (ListGetResult (ListObjectsV2 s3_client objects_request))) ->
             list_loop s3_client fuel objects_request = None).
Proof.
  intros Hrange.
  assert (Hhang : - 2 ^ 32 < GetSize s3_object < 0 ->
                  forall fuel, enumerate_object fuel s3_object = None).
  { intros Hneg fuel. unfold enumerate_object.
    change 0 with (0 * 2 ^ 32) at 1.
    rewrite chunk_loop_wraps_forever; [reflexivity| |lia].
    unfold wrap64.
    replace (GetSize s3_object) with (GetSize s3_object + 2 ^ 64 - 1 * 2 ^ 64)
      by lia.
    rewrite Zminus_mod, Z_mod_mult, Z.sub_0_r, Z.mod_mod by lia.
    rewrite Z.mod_small; lia. }
  split.
  - split.
    + intros (fuel & pushes & E) Hneg. rewrite (Hhang Hneg fuel) in E.
      discriminate.
    + intros Hok.
      assert (Hc : 0 < ReadChunkSize) by (rewrite ReadChunkSize_value; lia).
      set (s := wrap64 (GetSize s3_object)).
      assert (Hs : 0 <= s < 2 ^ 64) by (apply Z.mod_pos_bound; lia).
      assert (Hnowrap : forall o, 0 <= o < s ->
                                  o = 0 \/ ReadChunkSize <= o ->
                                  o + ReadChunkSize < 2 ^ 64).
      { rewrite ReadChunkSize_value. intros o Ho _.
        destruct (Z_lt_le_dec (GetSize s3_object) 0) as [Hneg|Hnn].
        - assert (Es : s = GetSize s3_object + 2 ^ 64).
          { unfold s, wrap64.
            replace (GetSize s3_object)
              with (GetSize s3_object + 2 ^ 64 - 1 * 2 ^ 64) by lia.
            rewrite Zminus_mod, Z_mod_mult, Z.sub_0_r, Z.mod_mod by lia.
            rewrite Z.mod_small; lia. }
          lia.
        - assert (Es : s = GetSize s3_object).
          { unfold s. apply wrap64_small. lia. }
          lia. }
      destruct (chunk_loop_run ReadChunkSize s Hc (proj1 Hs) Hnowrap
                  (Z.to_nat (s / ReadChunkSize) + 2) 0)
        as (rs & E & _);
        [lia|now left|apply chunk_fuel_enough; lia|].
      exists (Z.to_nat (s / ReadChunkSize) + 2)%nat. unfold enumerate_object.
      fold s. rewrite E. eauto.
  - intros Hneg fuel. split; [now apply Hhang|].
    intros s3_client objects_request Hok Hin.
    destruct fuel as [|fuel]; [reflexivity|]. cbn [list_loop].
    unfold list_page. rewrite Hok.
    assert (Hnone : enumerate_objects fuel
                      (GetContents
                         (ListGetResult
                            (ListObjectsV2 s3_client objects_request)))
                    = None).
    { induction (GetContents _) as [|o os IH]; [contradiction|].
      simpl. destruct Hin as [->|Hin].
      - now rewrite (Hhang Hneg fuel).
      - rewrite (IH Hin). now destruct (enumerate_object fuel o). }
    now rewrite Hnone.
Qed.

Lemma enumerate_object_returns_iff_witness :
  enumerate_object 5 {| GetKey := "k"; GetSize := -1 |} = None.
Proof.
  destruct (enumerate_object_returns_iff {| GetKey := "k"; GetSize := -1 |})
    as (_ & H); [simpl; lia|].
  apply (H ltac:(simpl; lia) 5%nat).
Defined.

(** * Accounting for tasks *)

Lemma popped_in_app (xs ys : list Event) :
  popped_in (xs ++ ys) = popped_in xs ++ popped_in ys.
Proof.
  induction xs as [|[[kr|]| | | |] xs IH]; simpl; auto. now rewrite IH.
Qed.

Lemma retrieved_in_app (xs ys : list Event) :
  retrieved_in (xs ++ ys) = retrieved_in xs ++ retrieved_in ys.
Proof.
  induction xs as [|[] xs IH]; simpl; auto. now rewrite IH.
Qed.

Lemma pushes_of_app (xs ys : list Action) :
  pushes_of (xs ++ ys) = pushes_of xs ++ pushes_of ys.
Proof.
  induction xs as [|[] xs IH]; simpl; auto. now rewrite IH.
Qed.

Section Accounting.

Variable s3_client : S3Client.
Variable bucket_name : string.

Lemma turn_tasks_conserved (program : list Action) st t :
  tasks_conserved program st ->
  tasks_conserved program (turn s3_client bucket_name st t).
Proof.
  destruct st as [s tr]. unfold tasks_conserved, turn. simpl. intros H.
  destruct (sys_step s3_client bucket_name t s) as [[s' ev]|] eqn:Hstep;
    [|exact H].
  simpl. rewrite fmap_app, popped_in_app. simpl.
  unfold sys_step in Hstep. destruct (exit_status s); [discriminate|].
  destruct t as [|j].
  - unfold main_step in Hstep.
    destruct (main_thread s) as [|a rest] eqn:Hm; [discriminate|].
    destruct a; simpl in H;
      try (inversion Hstep; subst; simpl; rewrite app_nil_r; exact H).
    + inversion Hstep; subst; simpl. rewrite app_nil_r, H.
      now rewrite <- !app_assoc.
    + destruct (reader_threads s !! i) as [[]|]; try discriminate.
      inversion Hstep; subst; simpl. rewrite app_nil_r. exact H.
  - unfold reader_step in Hstep.
    destruct (reader_threads s !! j) as [pc|]; [|discriminate].
    destruct pc; simpl in Hstep.
    + unfold Pop in Hstep.
      destruct (keylist_ (objects s)) as [|kr rest] eqn:E;
        inversion Hstep; subst; simpl; rewrite H, ?E.
      * now rewrite app_nil_r.
      * now rewrite <- !app_assoc.
    + inversion Hstep; subst; simpl. now rewrite app_nil_r.
    + destruct (end_marker_ (objects s)); inversion Hstep; subst; simpl;
        now rewrite app_nil_r.
    + inversion Hstep; subst; simpl. now rewrite app_nil_r.
    + discriminate.
Qed.

Lemma run_conserves (program : list Action) (schedule : list Tid) :
  tasks_conserved program
    (run s3_client bucket_name schedule (initial program)).
Proof.
  apply (turns_invariant s3_client bucket_name (tasks_conserved program)).
  - intros st t. apply turn_tasks_conserved.
  - unfold tasks_conserved. reflexivity.
Qed.

(** X3. In every run of every program, under every schedule, the tasks the
    program pushes, in program order, are: the tasks popped so far, in the
    order the readers popped them, then the tasks in the queue, then the
    tasks main has still to push. No task is lost from the queue, handed out
    twice or handed out ahead of an earlier one. *)
Theorem run_tasks_conserved (program : list Action) (schedule : list Tid) :
  let final := run s3_client bucket_name schedule (initial program) in
  pushes_of program
  = popped_in (snd <$> snd final) ++ keylist_ (objects (fst final))
      ++ pushes_of (main_thread (fst final)).
Proof. exact (run_conserves program schedule). Qed.

Lemma turn_readers_accounted st t :
  readers_accounted st ->
  readers_accounted (turn s3_client bucket_name st t).
Proof.
  destruct st as [s tr]. unfold readers_accounted, turn. simpl. intros H.
  destruct (sys_step s3_client bucket_name t s) as [[s' ev]|] eqn:Hstep;
    [|exact H].
  simpl. unfold sys_step in Hstep.
  destruct (exit_status s); [discriminate|].
  destruct t as [|j].
  - assert (Hev : forall i,
               events_of i (tr ++ [(TMain, ev)]) = events_of i tr).
    { intros i. rewrite events_of_app. simpl. apply app_nil_r. }
    unfold main_step in Hstep.
    destruct (main_thread s) as [|a rest]; [discriminate|].
    destruct a;
      try (inversion Hstep; subst; simpl; intros i; rewrite Hev; apply H).
    + (* a reader is started *)
      inversion Hstep; subst; simpl. intros i. rewrite Hev.
      specialize (H i).
      destruct (reader_threads s !! i) as [pc|] eqn:Ei.
      * now rewrite (lookup_app_l_Some _ _ _ _ Ei).
      * rewrite lookup_app_r by (now apply lookup_ge_None).
        destruct (i - length (reader_threads s))%nat as [|k]; simpl.
        -- rewrite H. reflexivity.
        -- exact H.
    + destruct (reader_threads s !! i) as [[]|]; try discriminate.
      inversion Hstep; subst; simpl. intros k. rewrite Hev. apply H.
  - unfold reader_step in Hstep.
    destruct (reader_threads s !! j) as [pcj|] eqn:Ej; [|discriminate].
    destruct (Retriever_step s3_client bucket_name pcj (objects s))
      as [[[[pc' q'] text] ev']|] eqn:Es; [|discriminate].
    inversion Hstep; subst; clear Hstep. simpl. intros i.
    rewrite events_of_app. simpl.
    destruct (Nat.eqb_spec i j) as [->|Hij].
    + rewrite list_lookup_insert_eq by (now apply lookup_lt_Some in Ej).
      specialize (H j). rewrite Ej in H.
      rewrite popped_in_app, retrieved_in_app, H.
      destruct pcj; simpl in Es.
      * destruct (Pop (objects s)) as [[kr|] q1]; inversion Es; subst; simpl;
          now rewrite ?app_nil_r.
      * inversion Es; subst; simpl. now rewrite !app_nil_r.
      * destruct (end_marker_ (objects s)); inversion Es; subst; simpl;
          now rewrite ?app_nil_r.
      * inversion Es; subst; simpl. now rewrite ?app_nil_r.
      * discriminate.
    + rewrite list_lookup_insert_ne by congruence.
      rewrite app_nil_r. apply H.
Qed.

(** X4. In every run of every program, each reader calls
    [RetrieveObjectRange] on exactly the tasks it popped, in the order it
    popped them, the last one possibly still in its hand; a reader that has
    returned has retrieved every task it ever popped. *)
Theorem run_readers_accounted (program : list Action) (schedule : list Tid)
    (i : nat) (pc : RetrieverPc) :
  let final := run s3_client bucket_name schedule (initial program) in
  reader_threads (fst final) !! i = Some pc ->
  popped_in (events_of i (snd final))
  = retrieved_in (events_of i (snd final)) ++ in_hand pc
  /\ (pc = Done ->
      popped_in (events_of i (snd final))
      = retrieved_in (events_of i (snd final))).
Proof.
  intros final Hi.
  assert (H : readers_accounted final).
  { unfold final, run. apply turns_invariant; [apply turn_readers_accounted|].
    intros k. reflexivity. }
  specialize (H i). rewrite Hi in H. split; [exact H|].
  intros ->. rewrite H. apply app_nil_r.
Qed.

End Accounting.

Lemma run_readers_accounted_witness :
  let final := run flaky_client "bucket"
                 [TMain; TMain; TMain; TReader 0; TReader 0; TReader 0;
                  TReader 0]
                 (initial [ASpawn; APush "b" "bytes=0-20"; ASetEnd]) in
  popped_in (events_of 0 (snd final)) = [("b", "bytes=0-20")%string]
  /\ retrieved_in (events_of 0 (snd final)) = [("b", "bytes=0-20")%string].
Proof.
  intros final.
  destruct (run_readers_accounted flaky_client "bucket"
              [ASpawn; APush "b" "bytes=0-20"; ASetEnd]
              [TMain; TMain; TMain; TReader 0; TReader 0; TReader 0;
               TReader 0] 0%nat Done eq_refl) as (_ & H).
  fold final in H. rewrite <- (H eq_refl). split; reflexivity.
Defined.

(** * What a run can and cannot do with the tasks *)

Lemma push_all_app (xs ys : list ReadKey) (q : ObjectList) :
  push_all (xs ++ ys) q = push_all ys (push_all xs q).
Proof. unfold push_all. apply fold_left_app. Qed.

Section Races.

Variable s3_client : S3Client.
Variable bucket_name : string.

Lemma quiet_turn_state (a : Action) s tr rest :
  exit_status s = None ->
  main_thread s = a :: rest ->
  is_quiet a = true ->
  exists s' tr',
    turn s3_client bucket_name (s, tr) TMain = (s', tr')
    /\ exit_status s' = None /\ main_thread s' = rest
    /\ objects s' = push_all (pushes_of [a]) (objects s)
    /\ reader_threads s'
       = reader_threads s ++ replicate (count_spawn [a]) Draining.
Proof.
  intros Hx Hmain Ha. unfold turn, sys_step, main_step. simpl.
  rewrite Hx, Hmain.
  destruct a; simpl in Ha; try discriminate; simpl;
    eexists _, _; (split; [reflexivity|]); simpl;
    rewrite ?app_nil_r; auto.
Qed.

(** The main thread, moving alone through quiet actions: what it pushes is
    queued behind what was there, the readers it starts stand at their first
    [Pop]. *)
Lemma main_solo_state (pre : list Action) :
  forall s tr rest,
    exit_status s = None ->
    main_thread s = pre ++ rest ->
    forallb is_quiet pre = true ->
    let st := fold_left (turn s3_client bucket_name)
                (replicate (length pre) TMain) (s, tr) in
    exit_status (fst st) = None /\ main_thread (fst st) = rest
    /\ objects (fst st) = push_all (pushes_of pre) (objects s)
    /\ reader_threads (fst st)
       = reader_threads s ++ replicate (count_spawn pre) Draining.
Proof.
  induction pre as [|a pre IH]; intros s tr rest Hx Hmain Hquiet.
  - simpl. rewrite app_nil_r. auto.
  - simpl in Hquiet. apply andb_true_iff in Hquiet as [Ha Hquiet].
    destruct (quiet_turn_state a s tr (pre ++ rest) Hx Hmain Ha)
      as (s' & tr' & E & Hx' & Hmain' & Ho & Hr).
    cbn [length replicate fold_left]. rewrite E.
    destruct (IH s' tr' rest Hx' Hmain' Hquiet) as (H1 & H2 & H3 & H4).
    split; [exact H1|]. split; [exact H2|]. split.
    + rewrite H3, Ho.
      change (a :: pre) with ([a] ++ pre).
      now rewrite pushes_of_app, push_all_app.
    + rewrite H4, Hr.
      change (a :: pre) with ([a] ++ pre).
      now rewrite count_spawn_app, replicate_add, app_assoc.
Qed.

Lemma SetEnd_turn_state s tr rest :
  exit_status s = None ->
  main_thread s = ASetEnd :: rest ->
  exists s' tr',
    turn s3_client bucket_name (s, tr) TMain = (s', tr')
    /\ exit_status s' = None /\ main_thread s' = rest
    /\ objects s' = SetEnd (objects s)
    /\ reader_threads s' = reader_threads s.
Proof.
  intros Hx Hmain. unfold turn, sys_step, main_step. simpl.
  rewrite Hx, Hmain. simpl.
  eexists _, _. split; [reflexivity|]. simpl. auto.
Qed.

(** One turn for each of the readers [k], ..., [k + m - 1], all at a
    position from which the step leaves the queue alone. *)
Lemma readers_round (pc pc' : RetrieverPc) (ev : Event)
    (good : ObjectList -> Prop) :
  (forall q, good q ->
             Retriever_step s3_client bucket_name pc q
             = Some (pc', q, ""%string, ev)) ->
  forall (m k : nat) s tr,
    exit_status s = None -> good (objects s) ->
    reader_threads s = replicate k pc' ++ replicate m pc ->
    let st := fold_left (turn s3_client bucket_name)
                (TReader <$> seq k m) (s, tr) in
    exit_status (fst st) = None /\ objects (fst st) = objects s
    /\ main_thread (fst st) = main_thread s
    /\ reader_threads (fst st) = replicate (k + m) pc'.
Proof.
  intros Hstep. induction m as [|m IH]; intros k s tr Hx Hg Hr.
  - simpl. rewrite Hr, app_nil_r, Nat.add_0_r. auto.
  - cbn [seq fmap list_fmap fold_left].
    assert (Hk : reader_threads s !! k = Some pc).
    { rewrite Hr. apply list_lookup_middle. now rewrite length_replicate. }
    assert (E : turn s3_client bucket_name (s, tr) (TReader k)
                = ({| objects := objects s;
                      cout := (cout s ++ "")%string;
                      main_thread := main_thread s;
                      reader_threads := <[k := pc']> (reader_threads s);
                      exit_status := exit_status s |},
                   tr ++ [(TReader k, ev)])).
    { unfold turn, sys_step, reader_step. simpl.
      now rewrite Hx, Hk, (Hstep _ Hg). }
    rewrite E.
    match goal with
    | |- context [fold_left _ _ (?s1, ?tr1)] =>
        destruct (IH (S k) s1 tr1) as (H1 & H2 & H3 & H4)
    end; simpl; auto.
    + rewrite Hr. cbn [replicate].
      rewrite insert_app_r_alt by (rewrite length_replicate; lia).
      rewrite length_replicate, Nat.sub_diag. simpl.
      change (pc' :: replicate m pc) with ([pc'] ++ replicate m pc).
      rewrite app_assoc, <- replicate_cons_app. reflexivity.
    + simpl in *. rewrite H1, H2, H3, H4.
      replace (k + S m)%nat with (S k + m)%nat by lia. auto.
Qed.

(** The joins and the return leave the queue alone. *)
Lemma main_joins_state (n : nat) :
  forall (joined : nat) s tr,
    (joined + n = ThreadCount)%nat ->
    exit_status s = None ->
    main_thread s = main_tail joined ->
    (forall i : nat,
        (i < ThreadCount)%nat -> reader_threads s !! i = Some Done) ->
    let st := fold_left (turn s3_client bucket_name)
                (replicate (S n) TMain) (s, tr) in
    exit_status (fst st) = Some 0 /\ objects (fst st) = objects s.
Proof.
  induction n as [|n IH]; intros joined s tr Hn Hx Hmain Hdone.
  - replace joined with ThreadCount in Hmain by lia.
    rewrite main_tail_end in Hmain.
    simpl. unfold turn, sys_step, main_step. simpl.
    rewrite Hx, Hmain. simpl. auto.
  - change (replicate (S (S n)) TMain)
      with (TMain :: replicate (S n) TMain).
    rewrite main_tail_step in Hmain by lia.
    cbn [fold_left].
    assert (E : turn s3_client bucket_name (s, tr) TMain
                = ({| objects := objects s; cout := cout s;
                      main_thread := main_tail (S joined);
                      reader_threads := reader_threads s;
                      exit_status := exit_status s |},
                   tr ++ [(TMain, EvMain (AJoin joined))])).
    { unfold turn, sys_step, main_step. simpl.
      now rewrite Hx, Hmain, (Hdone joined) by lia. }
    rewrite E.
    match goal with
    | |- context [fold_left _ _ (?s1, ?tr1)] =>
        destruct (IH (S joined) s1 tr1) as (H1 & H2)
    end; simpl; auto. lia.
Qed.

End Races.

(** X5. The check of the queue and the check of the flag are two separate
    calls, and tasks can be pushed in between. Whatever the bucket lists,
    there is a schedule under which every reader finds the queue empty
    before the first push and the flag set after the last one: the process
    then ends with status 0 although no task was ever popped, and all the
    tasks pushed are still in the queue. *)
Theorem tasks_can_be_lost (connect : string -> S3Client)
    (argv : list string) (fuel : nat) (program : list Action) :
  (3 <= length argv)%nat ->
  main connect fuel argv = Some program ->
  exists schedule,
    let final := run (connect (nth 1 argv ""%string)) (nth 2 argv ""%string)
                   schedule (initial program) in
    exit_status (fst final) = Some 0
    /\ keylist_ (objects (fst final)) = pushes_of program
    /\ popped_in (snd <$> snd final) = [].
Proof.
  intros Hargs Hmain.
  destruct (main_shape connect argv fuel program Hargs Hmain)
    as (listing & El & Hprog & _ & _).
  destruct (list_loop_quiet _ _ _ _ El) as (Hq & Hc).
  set (s3_client := connect (nth 1 argv ""%string)) in *.
  set (bucket_name := nth 2 argv ""%string) in *.
  set (pre1 := [APrint (banner bucket_name (nth 1 argv ""%string))]
                 ++ replicate ThreadCount ASpawn) in *.
  rewrite <- !app_assoc in Hprog.
  change ([APrint (banner bucket_name (nth 1 argv ""%string))]
            ++ replicate ThreadCount ASpawn
            ++ listing ++ ASetEnd :: main_tail 0)
    with (pre1 ++ listing ++ ASetEnd :: main_tail 0) in Hprog.
  assert (Hpushes : pushes_of program = pushes_of listing).
  { rewrite Hprog, !pushes_of_app.
    change (pushes_of pre1) with (@nil ReadKey).
    change (pushes_of (ASetEnd :: main_tail 0)) with (@nil ReadKey).
    now rewrite app_nil_r. }
  set (p1 := replicate (length pre1) TMain).
  set (round := TReader <$> seq 0 ThreadCount).
  set (p3 := replicate (length listing) TMain).
  set (p5 := replicate (S ThreadCount) TMain).
  set (schedule := p1 ++ round ++ p3 ++ [TMain] ++ round ++ p5).
  exists schedule. intros final.
  pose proof (run_conserves s3_client bucket_name program schedule)
    as Hcons.
  unfold tasks_conserved in Hcons. fold final in Hcons.
  assert (Hfinal : exit_status (fst final) = Some 0
                   /\ objects (fst final)
                      = SetEnd (push_all (pushes_of listing) ObjectList_new)).
  { unfold final, run, schedule. rewrite !fold_left_app.
    (* the banner and the thread starts *)
    destruct (main_solo_state s3_client bucket_name pre1 (initial program) []
                (listing ++ ASetEnd :: main_tail 0))
      as (Hx1 & Hm1 & Ho1 & Hr1); [reflexivity|exact Hprog|reflexivity|].
    fold p1 in Hx1, Hm1, Ho1, Hr1.
    destruct (fold_left _ p1 _) as [s1 tr1]. cbn [fst snd] in Hx1, Hm1, Ho1, Hr1.
    (* every reader finds the queue empty *)
    destruct (readers_round s3_client bucket_name Draining IdleWait
                (EvPop None) (fun q => keylist_ q = [])
                (fun q Hq => ltac:(simpl; now rewrite (Pop_nil q Hq)))
                ThreadCount 0 s1 tr1 Hx1)
      as (Hx2 & Ho2 & Hm2 & Hr2); [now rewrite Ho1|exact Hr1|].
    fold round in Hx2, Ho2, Hm2, Hr2.
    destruct (fold_left _ round (s1, tr1)) as [s2 tr2].
    cbn [fst snd] in Hx2, Ho2, Hm2, Hr2.
    (* the listing: all the pushes *)
    destruct (main_solo_state s3_client bucket_name listing s2 tr2
                (ASetEnd :: main_tail 0) Hx2)
      as (Hx3 & Hm3 & Ho3 & Hr3); [congruence|exact Hq|].
    fold p3 in Hx3, Hm3, Ho3, Hr3.
    destruct (fold_left _ p3 (s2, tr2)) as [s3 tr3].
    cbn [fst snd] in Hx3, Hm3, Ho3, Hr3.
    (* SetEnd *)
    destruct (SetEnd_turn_state s3_client bucket_name s3 tr3 _ Hx3 Hm3)
      as (s4 & tr4 & E4 & Hx4 & Hm4 & Ho4 & Hr4).
    cbn [fold_left]. rewrite E4.
    (* every reader finds the flag set *)
    destruct (readers_round s3_client bucket_name IdleWait Done
                (EvIsEnd true) (fun q => end_marker_ q = true)
                (fun q Hq => ltac:(simpl; now rewrite Hq))
                ThreadCount 0 s4 tr4 Hx4)
      as (Hx5 & Ho5 & Hm5 & Hr5); [now rewrite Ho4| |].
    { rewrite Hr4, Hr3, Hr2, Hc. reflexivity. }
    fold round in Hx5, Ho5, Hm5, Hr5.
    destruct (fold_left _ round (s4, tr4)) as [s5 tr5].
    cbn [fst snd] in Hx5, Ho5, Hm5, Hr5.
    (* the joins and the return *)
    destruct (main_joins_state s3_client bucket_name ThreadCount 0 s5 tr5)
      as (Hx6 & Ho6); [reflexivity|exact Hx5|congruence| |].
    { intros i Hi. rewrite Hr5. now apply lookup_replicate_2. }
    fold p5 in Hx6, Ho6. split; [exact Hx6|].
    rewrite Ho6, Ho5, Ho4, Ho3, Ho2, Ho1. reflexivity. }
  destruct Hfinal as (Hx & Ho). split; [exact Hx|].
  assert (Hkeys : keylist_ (objects (fst final)) = pushes_of program).
  { rewrite Ho, Hpushes. simpl.
    now destruct (push_all_keylist (pushes_of listing) ObjectList_new)
      as [-> _]. }
  split; [exact Hkeys|].
  rewrite Hkeys in Hcons. apply (f_equal length) in Hcons.
  rewrite !length_app in Hcons.
  destruct (popped_in _); [reflexivity|simpl in Hcons; lia].
Qed.

Lemma tasks_can_be_lost_witness :
  exists program schedule,
    main (fun _ => flaky_client) 3
      ["readbucket_mt"; "10.0.0.1"; "bucket"]%string = Some program
    /\ exit_status (fst (run flaky_client "bucket" schedule
                           (initial program))) = Some 0
    /\ keylist_ (objects (fst (run flaky_client "bucket" schedule
                                 (initial program))))
       = [("a", "bytes=0-10"); ("b", "bytes=0-20")]%string.
Proof.
  destruct (main (fun _ => flaky_client) 3
              ["readbucket_mt"; "10.0.0.1"; "bucket"]%string)
    as [program|] eqn:E; [|vm_compute in E; discriminate].
  destruct (tasks_can_be_lost (fun _ => flaky_client)
              ["readbucket_mt"; "10.0.0.1"; "bucket"]%string 3 program)
    as (schedule & Hx & Hkeys & _); [simpl; lia|exact E|].
  exists program, schedule. split; [reflexivity|]. split; [exact Hx|].
  cbn [nth] in Hkeys. rewrite Hkeys.
  vm_compute in E. inversion E. reflexivity.
Defined.

Section Termination.

Variable s3_client : S3Client.
Variable bucket_name : string.

Lemma exited_stays (schedule : list Tid) s tr c :
  exit_status s = Some c ->
  fold_left (turn s3_client bucket_name) schedule (s, tr) = (s, tr).
Proof.
  intros Hx. induction schedule as [|t schedule IH]; simpl; [reflexivity|].
  unfold turn at 2. unfold sys_step. simpl. now rewrite Hx.
Qed.

Lemma turn_flag_stays st t :
  end_marker_ (objects (fst st)) = true ->
  end_marker_ (objects (fst (turn s3_client bucket_name st t))) = true.
Proof.
  destruct st as [s tr]. unfold turn. simpl. intros Hf.
  destruct (sys_step s3_client bucket_name t s) as [[s' ev]|] eqn:Hstep;
    [simpl|exact Hf].
  unfold sys_step in Hstep. destruct (exit_status s); [discriminate|].
  destruct t as [|j].
  - unfold main_step in Hstep.
    destruct (main_thread s) as [|a rest]; [discriminate|].
    destruct a; try (inversion Hstep; subst; simpl; auto; fail).
    destruct (reader_threads s !! i) as [[]|]; try discriminate.
    inversion Hstep; subst; simpl; auto.
  - unfold reader_step in Hstep.
    destruct (reader_threads s !! j) as [pcj|]; [|discriminate].
    destruct (Retriever_step s3_client bucket_name pcj (objects s))
      as [[[[pc' q'] text] ev']|] eqn:Es; [|discriminate].
    inversion Hstep; subst. simpl.
    destruct (Retriever_step_queue _ _ _ _ _ _ _ _ Es) as (-> & _).
    exact Hf.
Qed.

(** With the flag set and every reader returned, [ThreadCount + 1] turns of
    the main thread end the process with status 0. *)
Lemma main_finishes s tr :
  main_invariant s ->
  end_marker_ (objects s) = true ->
  (forall i : nat,
      (i < ThreadCount)%nat -> reader_threads s !! i = Some Done) ->
  exit_status
    (fst (fold_left (turn s3_client bucket_name)
            (replicate (S ThreadCount) TMain) (s, tr))) = Some 0.
Proof.
  intros Hinv Hf Hdone. unfold main_invariant in Hinv.
  destruct (exit_status s) as [c|] eqn:Hx.
  - rewrite (exited_stays _ s tr c Hx). simpl.
    destruct Hinv as (-> & _). exact Hx.
  - destruct Hinv as [(Hf' & _)|(_ & _ & joined & Hj & Hmain & _)];
      [congruence|].
    replace (S ThreadCount)
      with (S (ThreadCount - joined) + joined)%nat by lia.
    rewrite replicate_add, fold_left_app.
    pose proof (main_joins s3_client bucket_name (ThreadCount - joined)
                  joined s tr ltac:(lia) Hx Hmain Hdone) as Hexit.
    destruct (fold_left _ (replicate (S (ThreadCount - joined)) TMain) _)
      as [s' tr'].
    simpl in Hexit. now rewrite (exited_stays _ s' tr' 0 Hexit).
Qed.

Lemma turn_drained_unless_polling (i : nat) st t :
  drained_unless_polling i (fst st) ->
  drained_unless_polling i (fst (turn s3_client bucket_name st t)).
Proof.
  destruct st as [s tr]. unfold turn. simpl. intros (Hnp & Hq).
  destruct (sys_step s3_client bucket_name t s) as [[s' ev]|] eqn:Hstep;
    [simpl|now split].
  unfold sys_step in Hstep. destruct (exit_status s); [discriminate|].
  destruct t as [|j].
  - unfold main_step in Hstep.
    destruct (main_thread s) as [|a rest]; [discriminate|].
    simpl in Hnp. apply andb_true_iff in Hnp as [Ha Hnp].
    destruct a; simpl in Ha; try discriminate;
      try (inversion Hstep; subst; split; simpl; auto; fail).
    + inversion Hstep; subst. split; [exact Hnp|]. simpl.
      destruct Hq as [Hq|(pc & Hi & Hpc)]; [now left|right].
      exists pc. split; [now apply lookup_app_l_Some|exact Hpc].
    + destruct (reader_threads s !! i0) as [[]|]; try discriminate.
      inversion Hstep; subst. split; simpl; auto.
  - unfold reader_step in Hstep.
    destruct (reader_threads s !! j) as [pcj|] eqn:Ej; [|discriminate].
    destruct (Retriever_step s3_client bucket_name pcj (objects s))
      as [[[[pc' q'] text] ev']|] eqn:Es; [|discriminate].
    inversion Hstep; subst; clear Hstep. split; [exact Hnp|]. simpl.
    destruct (Retriever_step_queue _ _ _ _ _ _ _ _ Es) as (_ & Hkeys).
    destruct Hq as [Hq|(pc & Hi & Hpc)].
    + left. destruct Hkeys as [->|(kr & _ & Hk)]; [exact Hq|].
      rewrite Hq in Hk. discriminate.
    + destruct (Nat.eq_dec i j) as [->|Hij].
      * rewrite Hi in Ej. inversion Ej; subst pcj.
        destruct pc; simpl in Hpc; try discriminate; simpl in Es.
        -- unfold Pop in Es.
           destruct (keylist_ (objects s)) as [|kr rest] eqn:Ek;
             inversion Es; subst.
           ++ now left.
           ++ right. exists (Retrieving kr). split; [|reflexivity].
              apply list_lookup_insert_eq. now apply lookup_lt_Some in Hi.
        -- inversion Es; subst. right. exists Draining.
           split; [|reflexivity].
           apply list_lookup_insert_eq. now apply lookup_lt_Some in Hi.
        -- inversion Es; subst. right. exists Draining.
           split; [|reflexivity].
           apply list_lookup_insert_eq. now apply lookup_lt_Some in Hi.
      * right. exists pc. split; [|exact Hpc].
        rewrite list_lookup_insert_ne by congruence. exact Hi.
Qed.

End Termination.

(** X6. Once [SetEnd] has been called, the pool winds up under every
    schedule that is fair enough: if each reader then gets
    [2 * pending + 3] turns, in any order and mixed with turns of the other
    threads, and the main thread [ThreadCount + 1] turns after that, the
    process has ended with status 0. *)
Theorem pool_terminates (connect : string -> S3Client) (argv : list string)
    (fuel : nat) (program : list Action) (before mid : list Tid) :
  (3 <= length argv)%nat ->
  main connect fuel argv = Some program ->
  let s3_client := connect (nth 1 argv ""%string) in
  let bucket_name := nth 2 argv ""%string in
  let s1 := fst (run s3_client bucket_name before (initial program)) in
  end_marker_ (objects s1) = true ->
  (forall i : nat,
      (i < ThreadCount)%nat ->
      (2 * length (keylist_ (objects s1)) + 3 <= turns_of i mid)%nat) ->
  exit_status
    (fst (run s3_client bucket_name
            (before ++ mid ++ replicate (S ThreadCount) TMain)
            (initial program))) = Some 0.
Proof.
  intros Hargs Hmain s3_client bucket_name s1 Hflag Hturns.
  destruct (main_shape connect argv fuel program Hargs Hmain)
    as (listing & _ & Hprog & Hpq & Hpc).
  fold s3_client bucket_name in Hprog, Hpq, Hpc.
  set (pre := [APrint (banner bucket_name (nth 1 argv ""%string))]
                ++ replicate ThreadCount ASpawn ++ listing) in *.
  subst program.
  rewrite app_assoc. unfold run at 1. rewrite fold_left_app.
  change (fold_left (turn s3_client bucket_name) (before ++ mid)
            (initial (pre ++ ASetEnd :: main_tail 0), []))
    with (run s3_client bucket_name (before ++ mid)
            (initial (pre ++ ASetEnd :: main_tail 0))).
  rewrite (surjective_pairing (run s3_client bucket_name (before ++ mid) _)).
  apply main_finishes.
  - now apply run_main_invariant.
  - unfold run. rewrite fold_left_app.
    apply (turns_invariant s3_client bucket_name
             (fun st => end_marker_ (objects (fst st)) = true)).
    + intros st t. apply turn_flag_stays.
    + exact Hflag.
  - intros i Hi.
    apply (readers_return_after_SetEnd s3_client bucket_name pre before mid i
             Hpq Hpc Hflag Hi (Hturns i Hi)).
Qed.

Lemma pool_terminates_witness :
  exit_status
    (fst (run flaky_client "bucket"
            (replicate 39 TMain
               ++ readers_in_turn ThreadCount 7
               ++ replicate (S ThreadCount) TMain)
            (initial
               ([APrint (banner "bucket" "10.0.0.1")]
                  ++ replicate ThreadCount ASpawn
                  ++ [AList (WithBucket "bucket");
                      APush "a" "bytes=0-10";
                      APush "b" "bytes=0-20";
                      AList (WithContinuationToken "page2"
                               (WithBucket "bucket"));
                      APrint (list_error_text slow_down)]
                  ++ [ASetEnd]
                  ++ (AJoin <$> seq 0 ThreadCount)
                  ++ [AExit 0])))) = Some 0.
Proof.
  apply (pool_terminates (fun _ => flaky_client)
           ["readbucket_mt"; "10.0.0.1"; "bucket"]%string 3).
  - simpl. lia.
  - reflexivity.
  - reflexivity.
  - intros i Hi.
    transitivity 7%nat; [vm_compute; lia|].
    apply turns_of_flat_map, in_seq. lia.
Defined.

(** X7. If, when [SetEnd] has been called, some reader has still to call
    [Pop] before its next check of the flag, nothing is left behind: once
    that reader has returned the queue is empty; and when the process has
    ended, every task the program pushed has been popped, in push order. *)
Theorem queue_drained_when_a_reader_polls_after_SetEnd
    (connect : string -> S3Client) (argv : list string)
    (fuel : nat) (program : list Action) (before after : list Tid)
    (i : nat) (pc : RetrieverPc) :
  (3 <= length argv)%nat ->
  main connect fuel argv = Some program ->
  let s3_client := connect (nth 1 argv ""%string) in
  let bucket_name := nth 2 argv ""%string in
  let s1 := fst (run s3_client bucket_name before (initial program)) in
  let final := run s3_client bucket_name (before ++ after)
                 (initial program) in
  end_marker_ (objects s1) = true ->
  reader_threads s1 !! i = Some pc ->
  will_pop_again pc = true ->
  (reader_threads (fst final) !! i = Some Done ->
   keylist_ (objects (fst final)) = [])
  /\ (forall c,
        exit_status (fst final) = Some c ->
        keylist_ (objects (fst final)) = []
        /\ popped_in (snd <$> snd final) = pushes_of program).
Proof.
  intros Hargs Hmain s3_client bucket_name s1 final Hflag Hi Hpc.
  destruct (main_shape connect argv fuel program Hargs Hmain)
    as (listing & _ & Hprog & Hpq & Hpcount).
  fold s3_client bucket_name in Hprog, Hpq, Hpcount.
  set (pre := [APrint (banner bucket_name (nth 1 argv ""%string))]
                ++ replicate ThreadCount ASpawn ++ listing) in *.
  (* at [s1] nothing is left to push *)
  assert (Hnp : no_push (main_thread s1) = true).
  { pose proof (run_main_invariant s3_client bucket_name pre before
                  Hpq Hpcount) as Hinv.
    rewrite <- Hprog in Hinv. fold s1 in Hinv.
    unfold main_invariant in Hinv. destruct (exit_status s1).
    - destruct Hinv as (_ & -> & _). reflexivity.
    - destruct Hinv as [(Hf & _)|(_ & _ & joined & _ & -> & _)];
        [congruence|apply no_push_main_tail]. }
  assert (Hinv : drained_unless_polling i (fst final)).
  { unfold final, run. rewrite fold_left_app.
    apply (turns_invariant s3_client bucket_name
             (fun st => drained_unless_polling i (fst st))).
    - intros st t. apply turn_drained_unless_polling.
    - split; [exact Hnp|]. right. exists pc. split; [exact Hi|exact Hpc]. }
  assert (Hdrained : reader_threads (fst final) !! i = Some Done ->
                     keylist_ (objects (fst final)) = []).
  { intros Hdone. destruct Hinv as (_ & [Hq|(pc' & Hi' & Hpc')]);
      [exact Hq|].
    rewrite Hdone in Hi'. inversion Hi'; subst pc'. discriminate. }
  split; [exact Hdrained|].
  intros c Hx.
  pose proof (run_main_invariant s3_client bucket_name pre (before ++ after)
                Hpq Hpcount) as Hend.
  rewrite <- Hprog in Hend. fold final in Hend.
  unfold main_invariant in Hend. rewrite Hx in Hend.
  destruct Hend as (_ & Hmt & Hall & _).
  assert (Hlt : (i < ThreadCount)%nat).
  { pose proof (run_main_invariant s3_client bucket_name pre before
                  Hpq Hpcount) as Hinv1.
    rewrite <- Hprog in Hinv1. fold s1 in Hinv1.
    apply lookup_lt_Some in Hi.
    unfold main_invariant in Hinv1. destruct (exit_status s1).
    - destruct Hinv1 as (_ & _ & Hr & _). rewrite Hr, length_replicate in Hi.
      exact Hi.
    - destruct Hinv1 as [(Hf & _)|(_ & Hlen & _)]; [congruence|lia]. }
  assert (Hq : keylist_ (objects (fst final)) = []).
  { apply Hdrained. rewrite Hall. now apply lookup_replicate_2. }
  split; [exact Hq|].
  pose proof (run_conserves s3_client bucket_name program
                (before ++ after)) as Hcons.
  unfold tasks_conserved in Hcons. fold final in Hcons.
  rewrite Hq, Hmt in Hcons. simpl in Hcons.
  now rewrite app_nil_r in Hcons.
Qed.

Lemma queue_drained_when_a_reader_polls_after_SetEnd_witness :
  let program :=
    [APrint (banner "bucket" "10.0.0.1")]
      ++ replicate ThreadCount ASpawn
      ++ [AList (WithBucket "bucket");
          APush "a" "bytes=0-10";
          APush "b" "bytes=0-20";
          AList (WithContinuationToken "page2" (WithBucket "bucket"));
          APrint (list_error_text slow_down)]
      ++ [ASetEnd]
      ++ (AJoin <$> seq 0 ThreadCount)
      ++ [AExit 0] in
  let final := run flaky_client "bucket"
                 (replicate 39 TMain ++ replicate 6 (TReader 0))
                 (initial program) in
  reader_threads (fst final) !! 0%nat = Some Done
  /\ keylist_ (objects (fst final)) = [].
Proof.
  intros program final. split; [reflexivity|].
  assert (Hargs : (3 <= length ["readbucket_mt"; "10.0.0.1"; "bucket"]%string)%nat)
    by (simpl; lia).
  pose proof (queue_drained_when_a_reader_polls_after_SetEnd
                (fun _ => flaky_client)
                ["readbucket_mt"; "10.0.0.1"; "bucket"]%string 3 program
                (replicate 39 TMain) (replicate 6 (TReader 0)) 0%nat Draining
                Hargs eq_refl eq_refl eq_refl eq_refl) as (H & _).
  apply H. reflexivity.
Defined.

(** * Pagination *)

Lemma list_calls_app (xs ys : list Action) :
  list_calls (xs ++ ys) = list_calls xs ++ list_calls ys.
Proof.
  induction xs as [|[] xs IH]; simpl; auto. now rewrite IH.
Qed.

Lemma enumerate_objects_calls (fuel : nat) (os : list S3Object) :
  forall acts,
    enumerate_objects fuel os = Some acts -> list_calls acts = [].
Proof.
  induction os as [|o os IH]; intros acts H; simpl in H.
  - now inversion H.
  - destruct (enumerate_object fuel o) as [a|] eqn:Ea; [|discriminate].
    destruct (enumerate_objects fuel os) as [b|] eqn:Eb; [|discriminate].
    inversion H; subst acts. rewrite list_calls_app, (IH b eq_refl).
    unfold enumerate_object in Ea.
    destruct (chunk_loop fuel _ _ _) as [rs|]; [|discriminate].
    inversion Ea; subst a. rewrite app_nil_r.
    induction rs as [|r rs IHrs]; simpl; auto.
Qed.

Lemma enumerate_objects_app (fuel : nat) (xs ys : list S3Object) a b :
  enumerate_objects fuel xs = Some a ->
  enumerate_objects fuel ys = Some b ->
  enumerate_objects fuel (xs ++ ys) = Some (a ++ b).
Proof.
  revert a. induction xs as [|o xs IH]; intros a Ha Hb; simpl in *.
  - inversion Ha. exact Hb.
  - destruct (enumerate_object fuel o) as [p|]; [|discriminate].
    destruct (enumerate_objects fuel xs) as [q|]; [|discriminate].
    inversion Ha; subst a. rewrite (IH q eq_refl Hb).
    now rewrite app_assoc.
Qed.

(** X8. When the listing loop returns, its listing calls form one chain
    from the first request: each call whose result is flagged truncated is
    followed by the call with that result's token and the same bucket, and
    the last call's result is not truncated. The tasks pushed are the chunk
    tasks of the objects on the successful pages, in listing order. *)
Theorem list_loop_pagination (s3_client : S3Client) (fuel : nat) :
  forall objects_request acts,
    list_loop s3_client fuel objects_request = Some acts ->
    exists more pushes,
      list_calls acts = objects_request :: more
      /\ paginated s3_client objects_request more
      /\ Forall (fun r => ListBucket r = ListBucket objects_request) more
      /\ enumerate_objects fuel
           (listed_by s3_client (objects_request :: more)) = Some pushes
      /\ pushes_of acts = pushes_of pushes.
Proof.
  induction fuel as [|fuel IH]; intros request acts H; [discriminate|].
  cbn [list_loop] in H.
  destruct (list_page s3_client fuel request) as [page|] eqn:Ep;
    [|discriminate].
  assert (Hpage : exists pushes,
             list_calls page = [request]
             /\ enumerate_objects fuel
                  (if ListIsSuccess (ListObjectsV2 s3_client request)
                   then GetContents
                          (ListGetResult (ListObjectsV2 s3_client request))
                   else []) = Some pushes
             /\ pushes_of page = pushes_of pushes).
  { unfold list_page in Ep.
    destruct (ListIsSuccess (ListObjectsV2 s3_client request)).
    - destruct (enumerate_objects fuel _) as [pushes|] eqn:E; [|discriminate].
      inversion Ep; subst page. exists pushes. simpl.
      now rewrite (enumerate_objects_calls _ _ _ E).
    - inversion Ep; subst page. exists []. auto. }
  destruct Hpage as (pushes & Hcalls & Hen & Hpushes).
  apply (enumerate_objects_more_fuel _ 1) in Hen.
  replace (fuel + 1)%nat with (S fuel) in Hen by lia.
  destruct (GetIsTruncated (ListGetResult (ListObjectsV2 s3_client request)))
    eqn:Htr.
  - destruct (list_loop s3_client fuel _) as [rest|] eqn:Er; [|discriminate].
    inversion H; subst acts; clear H.
    destruct (IH _ _ Er) as (more & rpushes & Hc & Hp & Hb & He & Hpr).
    apply (enumerate_objects_more_fuel _ 1) in He.
    replace (fuel + 1)%nat with (S fuel) in He by lia.
    eexists (_ :: more), (pushes ++ rpushes).
    rewrite list_calls_app, Hcalls, Hc. split; [reflexivity|].
    split; [simpl; rewrite Htr; auto|].
    split.
    { constructor; [reflexivity|].
      eapply Forall_impl; [exact Hb|]. intros r Hr. exact Hr. }
    split.
    + unfold listed_by in *. cbn [flat_map].
      now apply enumerate_objects_app.
    + now rewrite !pushes_of_app, Hpushes, Hpr.
  - inversion H; subst acts; clear H.
    exists [], pushes. rewrite Hcalls. split; [reflexivity|].
    split; [exact Htr|]. split; [constructor|].
    split; [|exact Hpushes].
    unfold listed_by. cbn [flat_map]. now rewrite app_nil_r.
Qed.

Lemma list_loop_pagination_witness :
  exists more pushes,
    list_calls
      [AList (WithBucket "bucket");
       APush "a" "bytes=0-10";
       APush "b" "bytes=0-20";
       AList (WithContinuationToken "page2" (WithBucket "bucket"));
       APrint (list_error_text slow_down)]
    = WithBucket "bucket" :: more
    /\ paginated flaky_client (WithBucket "bucket") more
    /\ Forall (fun r => ListBucket r = "bucket"%string) more
    /\ enumerate_objects 3
         (listed_by flaky_client (WithBucket "bucket" :: more)) = Some pushes
    /\ [("a", "bytes=0-10"); ("b", "bytes=0-20")]%string = pushes_of pushes.
Proof.
  apply (list_loop_pagination flaky_client 3 (WithBucket "bucket")).
  reflexivity.
Defined.

(** * The single-threaded reader *)

Lemma sync_list_calls_app (xs ys : list SyncAction) :
  sync_list_calls (xs ++ ys) = sync_list_calls xs ++ sync_list_calls ys.
Proof.
  induction xs as [|[] xs IH]; simpl; auto. now rewrite IH.
Qed.

Lemma sync_gets_app (xs ys : list SyncAction) :
  sync_gets (xs ++ ys) = sync_gets xs ++ sync_gets ys.
Proof.
  induction xs as [|[] xs IH]; simpl; auto. now rewrite IH.
Qed.

Lemma sync_objects_requests (s3_client : S3Client) (bucket_name : string)
    (os : list S3Object) :
  sync_list_calls (sync_objects s3_client bucket_name os) = []
  /\ sync_gets (sync_objects s3_client bucket_name os)
     = (fun o => {| GetBucket := bucket_name; GetObjectKey := GetKey o;
                    GetRange := "" |}) <$> os.
Proof.
  induction os as [|o os (IHc & IHg)]; simpl; auto.
  rewrite IHc, IHg. auto.
Qed.

Lemma sync_page_requests (s3_client : S3Client) (bucket_name : string)
    (request : ListObjectsV2Request) :
  sync_list_calls (sync_page s3_client bucket_name request) = [request]
  /\ sync_gets (sync_page s3_client bucket_name request)
     = (fun o => {| GetBucket := bucket_name; GetObjectKey := GetKey o;
                    GetRange := "" |})
         <$> listed_by s3_client [request].
Proof.
  unfold sync_page, listed_by. cbn [flat_map]. rewrite app_nil_r.
  destruct (ListIsSuccess _); simpl; auto.
  destruct (sync_objects_requests s3_client bucket_name
              (GetContents (ListGetResult (ListObjectsV2 s3_client request))))
    as (-> & ->). auto.
Qed.

(** The loop of the single-threaded reader: one chain of listing calls, one
    GET without a range for every object on a successful page. *)
Lemma sync_list_loop_requests (s3_client : S3Client)
    (bucket_name : string) (fuel : nat) :
  forall objects_request acts,
    sync_list_loop s3_client bucket_name fuel objects_request = Some acts ->
    exists more,
      sync_list_calls acts = objects_request :: more
      /\ paginated s3_client objects_request more
      /\ sync_gets acts
         = (fun o => {| GetBucket := bucket_name; GetObjectKey := GetKey o;
                        GetRange := "" |})
             <$> listed_by s3_client (objects_request :: more).
Proof.
  induction fuel as [|fuel IH]; intros request acts H; [discriminate|].
  cbn [sync_list_loop] in H.
  destruct (sync_page_requests s3_client bucket_name request) as (Hc & Hg).
  destruct (GetIsTruncated (ListGetResult (ListObjectsV2 s3_client request)))
    eqn:Htr.
  - destruct (sync_list_loop s3_client bucket_name fuel _) as [rest|] eqn:Er;
      [|discriminate].
    inversion H; subst acts; clear H.
    destruct (IH _ _ Er) as (more & Hrc & Hp & Hrg).
    eexists (_ :: more).
    rewrite sync_list_calls_app, sync_gets_app, Hc, Hg, Hrc, Hrg.
    split; [reflexivity|]. split; [simpl; rewrite Htr; auto|].
    unfold listed_by. cbn [flat_map]. now rewrite app_nil_r, !fmap_app.
  - inversion H; subst acts; clear H. exists [].
    rewrite Hc, Hg. split; [reflexivity|]. split; [exact Htr|reflexivity].
Qed.

(** X9. When the single-threaded reader, started with both arguments,
    returns, its listing calls form one chain from the request for the
    bucket, as pagination asks; it has made exactly one GET for every object
    on a successful page, in listing order, each for the whole object (no
    range) in that bucket, empty objects included; and its last action is
    the return with status 0. *)
Theorem sync_reads_every_listed_object (connect : string -> S3Client)
    (argv : list string) (fuel : nat) (acts : list SyncAction) :
  (3 <= length argv)%nat ->
  sync_main connect fuel argv = Some acts ->
  let s3_client := connect (nth 1 argv ""%string) in
  let bucket_name := nth 2 argv ""%string in
  exists more body,
    sync_list_calls acts = WithBucket bucket_name :: more
    /\ paginated s3_client (WithBucket bucket_name) more
    /\ sync_gets acts
       = (fun o => {| GetBucket := bucket_name; GetObjectKey := GetKey o;
                      GetRange := "" |})
           <$> listed_by s3_client (WithBucket bucket_name :: more)
    /\ acts = body ++ [SExit 0]
    /\ forall status, ~ In (SExit status) body.
Proof.
  intros Hargs Hmain s3_client bucket_name. unfold sync_main in Hmain.
  destruct (Z.ltb_spec (Z.of_nat (length argv)) 3) as [Hlt|_]; [lia|].
  fold s3_client bucket_name in Hmain.
  destruct (sync_list_loop s3_client bucket_name fuel (WithBucket bucket_name))
    as [listing|] eqn:El; [|discriminate].
  inversion Hmain; subst acts; clear Hmain.
  destruct (sync_list_loop_requests _ _ _ _ _ El) as (more & Hc & Hp & Hg).
  exists more, ([SPrint (banner bucket_name (nth 1 argv ""%string))]
                  ++ listing).
  cbn [app sync_list_calls sync_gets].
  rewrite !sync_list_calls_app, !sync_gets_app, Hc, Hg. simpl.
  rewrite !app_nil_r. split; [reflexivity|]. split; [exact Hp|].
  split; [reflexivity|]. split; [reflexivity|].
  assert (Hnoexit : forall f r sacts status,
             sync_list_loop s3_client bucket_name f r = Some sacts ->
             ~ In (SExit status) sacts).
  { clear. induction f as [|f IH]; intros r sacts status H; [discriminate|].
    cbn [sync_list_loop] in H.
    assert (Hpage : ~ In (SExit status) (sync_page s3_client bucket_name r)).
    { unfold sync_page. destruct (ListIsSuccess _).
      - intros [Hin|Hin]; [discriminate|].
        induction (GetContents _) as [|o os IHo]; simpl in Hin; [exact Hin|].
        destruct Hin as [Hin|[Hin|[Hin|Hin]]]; try discriminate. auto.
      - intros [Hin|[Hin|[]]]; discriminate. }
    destruct (GetIsTruncated _).
    - destruct (sync_list_loop s3_client bucket_name f _) as [rest|] eqn:Er;
        [|discriminate].
      inversion H; subst sacts. intros Hin.
      apply in_app_or in Hin as [Hin|Hin]; [auto|].
      exact (IH _ _ _ Er Hin).
    - inversion H; subst sacts. exact Hpage. }
  intros status [Hin|Hin]; [discriminate|].
  exact (Hnoexit _ _ _ _ El Hin).
Qed.

Lemma sync_reads_every_listed_object_witness :
  exists acts more,
    sync_main (fun _ => flaky_client) 3
      ["readbucket_sync"; "10.0.0.1"; "bucket"]%string = Some acts
    /\ sync_list_calls acts = WithBucket "bucket" :: more
    /\ sync_gets acts
       = [ {| GetBucket := "bucket"; GetObjectKey := "a"; GetRange := "" |};
           {| GetBucket := "bucket"; GetObjectKey := "b"; GetRange := "" |} ].
Proof.
  destruct (sync_main (fun _ => flaky_client) 3
              ["readbucket_sync"; "10.0.0.1"; "bucket"]%string)
    as [acts|] eqn:E; [|vm_compute in E; discriminate].
  assert (Hargs : (3 <= length ["readbucket_sync"; "10.0.0.1"; "bucket"]%string)%nat)
    by (simpl; lia).
  destruct (sync_reads_every_listed_object (fun _ => flaky_client) _ 3 acts
              Hargs E) as (more & body & Hc & _).
  exists acts, more. split; [reflexivity|]. split; [exact Hc|].
  vm_compute in E. inversion E. reflexivity.
Defined.

Lemma enumerate_objects_keys (fuel : nat) (os : list S3Object) :
  forall acts key range,
    enumerate_objects fuel os = Some acts ->
    In (key, range) (pushes_of acts) ->
    exists o, In o os /\ GetKey o = key.
Proof.
  induction os as [|o os IH]; intros acts key range H Hin; simpl in H.
  - inversion H; subst. contradiction.
  - destruct (enumerate_object fuel o) as [a|] eqn:Ea; [|discriminate].
    destruct (enumerate_objects fuel os) as [b|] eqn:Eb; [|discriminate].
    inversion H; subst acts. rewrite pushes_of_app in Hin.
    apply in_app_or in Hin as [Hin|Hin].
    + exists o. split; [now left|].
      unfold enumerate_object in Ea.
      destruct (chunk_loop fuel _ _ _) as [rs|]; [|discriminate].
      inversion Ea; subst a. clear - Hin.
      induction rs as [|r rs IHrs]; simpl in Hin; [contradiction|].
      destruct Hin as [Hin|Hin]; [now inversion Hin|auto].
    + destruct (IH b key range eq_refl Hin) as (o' & Ho' & Hk).
      exists o'. split; [now right|exact Hk].
Qed.

Lemma list_page_more_fuel (s3_client : S3Client) (fuel extra : nat)
    request page :
  list_page s3_client fuel request = Some page ->
  list_page s3_client (fuel + extra) request = Some page.
Proof.
  unfold list_page. destruct (ListIsSuccess _); [|auto].
  destruct (enumerate_objects fuel _) as [pushes|] eqn:E; [|discriminate].
  now rewrite (enumerate_objects_more_fuel _ extra _ _ E).
Qed.

Lemma enumerate_objects_returns (os : list S3Object) :
  (forall o, In o os -> exists f p, enumerate_object f o = Some p) ->
  exists f p, enumerate_objects f os = Some p.
Proof.
  induction os as [|o os IH]; intros H.
  - exists 0%nat, []. reflexivity.
  - destruct (H o (or_introl eq_refl)) as (f1 & p1 & E1).
    destruct IH as (f2 & p2 & E2); [intros o' Ho'; apply H; now right|].
    exists (f1 + f2)%nat, (p1 ++ p2). simpl.
    rewrite (enumerate_object_more_fuel _ f2 _ _ E1).
    rewrite Nat.add_comm, (enumerate_objects_more_fuel _ f1 _ _ E2).
    reflexivity.
Qed.

Lemma In_pushes_of (acts : list Action) (key range : string) :
  In (APush key range) acts <-> In (key, range) (pushes_of acts).
Proof.
  induction acts as [|a acts IH]; simpl; [tauto|].
  destruct a; simpl; rewrite <- IH;
    (split; [intros [H|H]; [try discriminate|]; auto|auto]).
  - inversion H. auto.
  - intros [H|H]; [inversion H|]; auto.
Qed.

Lemma page_agree (s3_client : S3Client) (bucket_name : string)
    (fuel : nat) request page :
  list_page s3_client fuel request = Some page ->
  list_calls page = [request]
  /\ forall key range,
       In (APush key range) page ->
       In {| GetBucket := bucket_name; GetObjectKey := key; GetRange := "" |}
          (sync_gets (sync_page s3_client bucket_name request)).
Proof.
  intros Hp.
  destruct (sync_page_requests s3_client bucket_name request) as (_ & Hg).
  rewrite Hg. unfold list_page in Hp. unfold listed_by. cbn [flat_map].
  rewrite app_nil_r.
  destruct (ListIsSuccess (ListObjectsV2 s3_client request)).
  - destruct (enumerate_objects fuel _) as [pushes|] eqn:E; [|discriminate].
    inversion Hp; subst page. simpl.
    rewrite (enumerate_objects_calls _ _ _ E). split; [reflexivity|].
    intros key range [H|H]; [discriminate|].
    apply In_pushes_of in H.
    destruct (enumerate_objects_keys _ _ _ _ _ E H) as (o & Ho & <-).
    apply list_elem_of_In, list_elem_of_fmap. exists o.
    split; [reflexivity|now apply list_elem_of_In].
  - inversion Hp; subst page. split; [reflexivity|].
    intros key range [H|[H|[]]]; discriminate.
Qed.

(** X10. The two programs list alike. Whenever the listing loop of the
    multi-threaded reader returns, the loop of the single-threaded reader
    returns on the same fuel with the same listing calls, and every key the
    former pushes a task for is a key the latter GETs. The other way round,
    when the single-threaded loop returns and the chunking loop returns for
    every object it listed, the multi-threaded loop returns too, with the
    same listing calls. *)
Theorem sync_and_threaded_list_alike (s3_client : S3Client)
    (bucket_name : string) :
  (forall fuel objects_request acts,
      list_loop s3_client fuel objects_request = Some acts ->
      exists sacts,
        sync_list_loop s3_client bucket_name fuel objects_request
          = Some sacts
        /\ sync_list_calls sacts = list_calls acts
        /\ forall key range,
             In (APush key range) acts ->
             In {| GetBucket := bucket_name; GetObjectKey := key;
                   GetRange := "" |} (sync_gets sacts))
  /\ (forall fuel objects_request sacts,
        sync_list_loop s3_client bucket_name fuel objects_request
          = Some sacts ->
        (forall o,
            In o (listed_by s3_client (sync_list_calls sacts)) ->
            exists f p, enumerate_object f o = Some p) ->
        exists fuel' acts,
          list_loop s3_client fuel' objects_request = Some acts
          /\ list_calls acts = sync_list_calls sacts).
Proof.
  split.
  - induction fuel as [|fuel IH]; intros request acts H; [discriminate|].
    cbn [list_loop] in H. cbn [sync_list_loop].
    destruct (list_page s3_client fuel request) as [page|] eqn:Ep;
      [|discriminate].
    destruct (page_agree s3_client bucket_name fuel request page Ep)
      as (Hc & Hk).
    destruct (sync_page_requests s3_client bucket_name request) as (Hsc & _).
    destruct (GetIsTruncated _).
    + destruct (list_loop s3_client fuel _) as [rest|] eqn:Er;
        [|discriminate].
      inversion H; subst acts; clear H.
      destruct (IH _ _ Er) as (srest & -> & Hrc & Hrk).
      eexists. split; [reflexivity|].
      rewrite sync_list_calls_app, list_calls_app, Hsc, Hc, Hrc.
      split; [reflexivity|].
      intros key range Hin. rewrite sync_gets_app.
      apply in_or_app. apply in_app_or in Hin as [Hin|Hin]; eauto.
    + inversion H; subst acts; clear H.
      eexists. split; [reflexivity|]. rewrite Hsc, Hc. auto.
  - induction fuel as [|fuel IH]; intros request sacts H Hret;
      [discriminate|].
    cbn [sync_list_loop] in H.
    destruct (sync_page_requests s3_client bucket_name request) as (Hsc & _).
    (* the page: enough fuel for its objects *)
    assert (Hpage : forall rest,
               (forall o,
                   In o (listed_by s3_client (request :: rest)) ->
                   exists f p, enumerate_object f o = Some p) ->
               exists fp page,
                 list_page s3_client fp request = Some page
                 /\ list_calls page = [request]).
    { intros rest Hr. unfold list_page.
      destruct (ListIsSuccess (ListObjectsV2 s3_client request)) eqn:Hok.
      - destruct (enumerate_objects_returns
                    (GetContents
                       (ListGetResult (ListObjectsV2 s3_client request))))
          as (fp & pushes & E).
        { intros o Ho. apply Hr. unfold listed_by. cbn [flat_map].
          rewrite Hok. apply in_or_app. now left. }
        exists fp. rewrite E. eexists. split; [reflexivity|].
        simpl. now rewrite (enumerate_objects_calls _ _ _ E).
      - exists 0%nat. eexists. split; reflexivity. }
    destruct (GetIsTruncated (ListGetResult (ListObjectsV2 s3_client request)))
      eqn:Htr.
    + destruct (sync_list_loop s3_client bucket_name fuel _) as [srest|] eqn:Er;
        [|discriminate].
      inversion H; subst sacts; clear H.
      rewrite sync_list_calls_app, Hsc in Hret |- *.
      destruct (Hpage (sync_list_calls srest) Hret) as (fp & page & Ep & Hc).
      destruct (IH _ _ Er) as (fr & rest & Elr & Hrc).
      { intros o Ho. apply Hret. unfold listed_by in *. cbn [flat_map app].
        apply in_or_app. now right. }
      exists (S (fp + fr)), (page ++ rest). cbn [list_loop].
      rewrite (list_page_more_fuel _ _ fr _ _ Ep), Htr.
      rewrite (Nat.add_comm fp fr), (list_loop_more_fuel _ _ fp _ _ Elr).
      split; [reflexivity|]. now rewrite list_calls_app, Hc, Hrc.
    + inversion H; subst sacts; clear H. rewrite Hsc in Hret |- *.
      destruct (Hpage [] Hret) as (fp & page & Ep & Hc).
      exists (S fp), page. cbn [list_loop]. rewrite Ep, Htr. auto.
Qed.

Lemma sync_and_threaded_list_alike_witness :
  exists sacts,
    sync_list_loop flaky_client "bucket" 3 (WithBucket "bucket") = Some sacts
    /\ sync_list_calls sacts
       = [WithBucket "bucket";
          WithContinuationToken "page2" (WithBucket "bucket")].
Proof.
  destruct (sync_and_threaded_list_alike flaky_client "bucket") as (H & _).
  destruct (H 3%nat (WithBucket "bucket") _ eq_refl)
    as (sacts & E & Hc & _).
  exists sacts. split; [exact E|exact Hc].
Defined.

(** * Range headers tell ranges apart *)

Lemma to_string_no_dash (n : Z) : no_dash (to_string n) = true.
Proof.
  unfold to_string.
  assert (H : forall d, no_dash (NilEmpty.string_of_uint d) = true).
  { induction d; simpl; auto. }
  destruct (N.to_uint (Z.to_N n)); simpl; auto.
Qed.

Lemma split_at_dash (a b s t : string) :
  no_dash a = true -> no_dash b = true ->
  (a ++ "-" ++ s)%string = (b ++ "-" ++ t)%string ->
  a = b /\ s = t.
Proof.
  revert b. induction a as [|c a IH]; intros [|c' b] Ha Hb H; simpl in *.
  - inversion H. auto.
  - inversion H; subst c'. simpl in Hb. discriminate.
  - inversion H; subst c. simpl in Ha. discriminate.
  - inversion H; subst c'.
    apply andb_true_iff in Ha as [_ Ha]. apply andb_true_iff in Hb as [_ Hb].
    destruct (IH b Ha Hb) as (-> & ->); auto.
Qed.

Lemma ConstructByteRange_inj_aux (lower upper lower' upper' : Z) :
  0 <= lower -> 0 <= upper -> 0 <= lower' -> 0 <= upper' ->
  ConstructByteRange lower upper = ConstructByteRange lower' upper' ->
  lower = lower' /\ upper = upper'.
Proof.
  intros Hl Hu Hl' Hu' H. unfold ConstructByteRange in H.
  simpl in H. inversion H as [H'].
  apply split_at_dash in H' as (H1 & H2); try apply to_string_no_dash.
  split; now apply to_string_inj.
Qed.

(** X11. [ConstructByteRange] tells ranges apart: on [unsigned] bounds, two
    headers are the same string only when the lower bounds are equal and
    the upper bounds are equal. *)
Theorem ConstructByteRange_inj (lower upper lower' upper' : Z) :
  0 <= lower -> 0 <= upper -> 0 <= lower' -> 0 <= upper' ->
  ConstructByteRange lower upper = ConstructByteRange lower' upper' ->
  lower = lower' /\ upper = upper'.
Proof. apply ConstructByteRange_inj_aux. Qed.

Lemma ConstructByteRange_inj_witness : 0 = 0 /\ 5 = 5.
Proof.
  apply (ConstructByteRange_inj 0 5 0 5); try lia. reflexivity.
Defined.

(** X12. The tasks pushed for one object are pairwise different: no
    [(key, range)] pair is queued twice for it. *)
Theorem enumerate_object_NoDup (s3_object : S3Object) (fuel : nat)
    (pushes : list Action) :
  0 <= GetSize s3_object < 2 ^ 63 ->
  enumerate_object fuel s3_object = Some pushes ->
  NoDup pushes.
Proof.
  intros Hs H.
  assert (Hc : 0 < ReadChunkSize < 2 ^ 64)
    by (rewrite ReadChunkSize_value; lia).
  (* with enough fuel the loop returns the ranges in closed form *)
  set (enough := (Z.to_nat (GetSize s3_object / ReadChunkSize) + 2)%nat).
  destruct (chunk_loop_from ReadChunkSize (GetSize s3_object) Hc Hs
              (fuel + enough) 0)
    as (rs & E & Hch & Hnth);
    [lia|now left|apply chunk_fuel_enough; lia|].
  unfold enumerate_object in H.
  rewrite wrap64_small in H by (change (2 ^ 64) with (2 * 2 ^ 63); lia).
  destruct (chunk_loop fuel _ _ _) as [rs'|] eqn:E'; [|discriminate].
  rewrite (chunk_loop_more_fuel _ _ _ enough _ _ E') in E.
  inversion E; subst rs'; clear E. inversion H; subst pushes; clear H.
  apply NoDup_alt. intros i j a Hi Hj.
  rewrite list_lookup_fmap in Hi, Hj.
  destruct (rs !! i) as [ri|] eqn:Ei; [|discriminate].
  destruct (rs !! j) as [rj|] eqn:Ej; [|discriminate].
  rewrite (Hnth i ri Ei) in Hi. rewrite (Hnth j rj Ej) in Hj.
  simpl in Hi, Hj. rewrite <- Hj in Hi.
  assert (Hrange : ConstructByteRange (0 + Z.of_nat i * ReadChunkSize)
                     (Z.min (GetSize s3_object)
                        (0 + (Z.of_nat i + 1) * ReadChunkSize))
                   = ConstructByteRange (0 + Z.of_nat j * ReadChunkSize)
                       (Z.min (GetSize s3_object)
                          (0 + (Z.of_nat j + 1) * ReadChunkSize)))
    by congruence.
  apply ConstructByteRange_inj_aux in Hrange as (Hlow & _); nia.
Qed.

Lemma enumerate_object_NoDup_witness :
  NoDup [APush "large" "bytes=0-4294967296";
         APush "large" "bytes=4294967296-5000000000"].
Proof.
  apply (enumerate_object_NoDup
           {| GetKey := "large"; GetSize := 5000000000 |} 3).
  - simpl. lia.
  - reflexivity.
Defined.

(** * Every GET is for a task of the program *)

Lemma popped_by_reader_popped (i : nat) (tr : list (Tid * Event)) kr :
  In kr (popped_in (events_of i tr)) -> In kr (popped_in (snd <$> tr)).
Proof.
  induction tr as [|[[|j] ev] tr IH]; simpl; intros H.
  - exact H.
  - destruct ev as [[t|]| | | |]; simpl; auto.
  - destruct (Nat.eqb i j).
    + destruct ev as [[t|]| | | |]; simpl in *; auto.
      destruct H as [H|H]; auto.
    + destruct ev as [[t|]| | | |]; simpl; auto.
Qed.

(** X13. In every run of every program, under every schedule, a reader
    calls [RetrieveObjectRange] only on a key and range that the program
    pushes. *)
Theorem readers_retrieve_only_pushed (s3_client : S3Client)
    (bucket_name : string) (program : list Action) (schedule : list Tid)
    (i : nat) (kr : ReadKey) :
  let final := run s3_client bucket_name schedule (initial program) in
  In kr (retrieved_in (events_of i (snd final))) ->
  In (APush (fst kr) (snd kr)) program.
Proof.
  intros final Hin. apply In_pushes_of. rewrite <- surjective_pairing.
  assert (Hacc : readers_accounted final).
  { unfold final, run. apply turns_invariant; [apply turn_readers_accounted|].
    intros k. reflexivity. }
  assert (Hcons : tasks_conserved program final).
  { unfold final, run. apply turns_invariant; [apply turn_tasks_conserved|].
    reflexivity. }
  specialize (Hacc i).
  destruct (reader_threads (fst final) !! i) as [pc|].
  - unfold tasks_conserved in Hcons. rewrite Hcons.
    apply in_or_app. left. apply (popped_by_reader_popped i).
    rewrite Hacc. apply in_or_app. now left.
  - rewrite Hacc in Hin. contradiction.
Qed.

Lemma readers_retrieve_only_pushed_witness :
  In (APush "b" "bytes=0-20")
     [ASpawn; APush "b" "bytes=0-20"; ASetEnd].
Proof.
  apply (readers_retrieve_only_pushed flaky_client "bucket"
           [ASpawn; APush "b" "bytes=0-20"; ASetEnd]
           [TMain; TMain; TMain; TReader 0; TReader 0; TReader 0; TReader 0]
           0%nat ("b", "bytes=0-20")%string).
  vm_compute. now left.
Defined.
